(** * chess-ai-battle: the turn loop and the game-state channel of server/main.go

    A shallow embedding of [playGame], [makeMove], [saveGameState],
    [initGame] and the SSE handler of server/main.go.  The global variables
    of the Go package become the fields of one record that is passed from
    call to call; the chess library, the two move providers, the SQL
    driver and the goroutines that read the channel are the environment. *)

From Stdlib Require Import List String Bool Arith Lia.
Import ListNotations.
Open Scope string_scope.
Open Scope list_scope.
Open Scope nat_scope.

(** ** The rules engine (github.com/notnil/chess)

    The library is not part of the repository: the loop only calls
    [NewGame], [MoveStr], [Outcome], [FEN] and [Outcome.String], so these
    are the members of the interface. *)

(** [chess.Outcome] is a string type with four constants. *)
Inductive Outcome : Type := NoOutcome | WhiteWon | BlackWon | Draw.

Definition Outcome_String (o : Outcome) : string :=
  match o with
  | NoOutcome => "*"
  | WhiteWon => "1-0"
  | BlackWon => "0-1"
  | Draw => "1/2-1/2"
  end.

Definition Outcome_eqb (a b : Outcome) : bool :=
  match a, b with
  | NoOutcome, NoOutcome | WhiteWon, WhiteWon
  | BlackWon, BlackWon | Draw, Draw => true
  | _, _ => false
  end.

Class RulesEngine : Type := {
  Game : Type;
  NewGame : Game;
  (** [game.MoveStr(move)]: [None] is the error of an illegal move, in
      which case the game is left as it was. *)
  MoveStr : Game -> string -> option Game;
  GetOutcome : Game -> Outcome;
  FEN : Game -> string
}.

(** ** Data *)

(** The Go [error] values of the file, by the place that builds them. *)
Inductive error : Type :=
| ErrProvider                 (* any error of getOpenAIMove / getAnthropicMove *)
| ErrUnknownPlayer (player : string)             (* main.go:268 *)
| ErrIllegalMove                                 (* the error of game.MoveStr *)
| ErrNoValidMove      (* "failed to get a valid move after 3 attempts", :258 *)
| ErrDbNotInitialized (* "database connection is not initialized", :282 *)
| ErrSaving           (* "error saving game state: %v", :297 *).

(** [GameState], main.go:26-34.  [ID] is never assigned by the server and
    keeps Go's zero value; [CreatedAt] is the reading of the clock. *)
Record GameState : Type := mkGameState {
  gs_ID : nat;
  gs_FEN : string;
  gs_LastMove : string;
  gs_LastPlayer : string;
  gs_CreatedAt : nat;
  gs_MoveHistory : list string;
  gs_GameOutcome : string
}.

(** One row of the table game_states, in the column order of the INSERT. *)
Record Row : Type := mkRow {
  row_fen : string;
  row_last_move : string;
  row_last_player : string;
  row_move_history : string;
  row_game_outcome : string
}.

(** Every [log.Printf]/[log.Println] of the loop, named by its text. *)
Inductive LogLine : Type :=
| LogStartingMove (n : nat) (player : string)                       (* :191 *)
| LogErrorMakingMove (player : string) (err : error)                (* :194 *)
| LogCompletedMove (n : nat) (fen : string)                         (* :202 *)
| LogSentToChannel                                                  (* :214 *)
| LogSkippedSending                                                 (* :216 *)
| LogGameOver (o : Outcome)                                         (* :222 *)
| LogErrorSavingFinal (err : error)                                 (* :225 *)
| LogStartingNewGame                                                (* :228 *)
| LogGettingMove (player fen : string)                              (* :235 *)
| LogErrorGettingMove (player : string) (attempt : nat) (err : error) (* :241 *)
| LogReceivedMove (player move : string)                            (* :244 *)
| LogInvalidMove (player move : string) (err : error)               (* :247 *)
| LogAppliedMove (move player : string)                             (* :252 *)
| LogPlayed (player move : string)                                  (* :300 *)
| LogSentAfterSave                                                  (* :304 *)
| LogSkippedAfterSave                                               (* :306 *).

(** What the loop does to the world outside its own variables, in the
    order in which it does it. *)
Inductive Event : Type :=
| EvLog (l : LogLine)
| EvSleep (seconds : nat)
| EvRequest (player fen : string) (isRetry : bool) (lastInvalidMove : string)
| EvInsert (r : Row) (ok : bool)
| EvOffer (g : GameState) (accepted : bool).

(** ** The channel: [make(chan *GameState, 100)] *)

Module Channel.

Definition capacity : nat := 100.

Section Queue.
Context {A : Type}.

(** [select { case ch <- a: ... default: ... }]: the send goes through
    when the buffer has room and is given up at once when it has
    none. *)
Definition trySend (q : list A) (a : A) : list A * bool :=
  if List.length q <? capacity then (q ++ [a], true) else (q, false).

(** [<-ch] with something in the buffer; on an empty buffer the
    receiver waits, which is [None]. *)
Definition recv (q : list A) : option (A * list A) :=
  match q with
  | [] => None
  | a :: q' => Some (a, q')
  end.

(** The channel together with the SSE handlers that read it
    (main.go:152-179).  [frames i] is what handler [i] has written to
    its client, [running i] says whether its loop has not returned. *)
Record Hub : Type := mkHub {
  backlog : list A;
  frames : nat -> list A;
  running : nat -> bool
}.

Definition upd {B : Type} (f : nat -> B) (i : nat) (b : B) : nat -> B :=
  fun j => if Nat.eqb j i then b else f j.

Inductive Action : Type :=
| Publish (a : A)                    (* the loop's select with default *)
| Connect (i : nat)                  (* a request reaches the handler *)
| Receive (i : nat) (writeOk : bool) (* case gameState, ok := <-ch *)
| Done (i : nat)                     (* case <-done *).

(** One action.  A handler that has returned does nothing more; a receive
    on an empty channel waits, which leaves the hub as it is.  After a
    receive the handler writes and flushes the frame; when that fails it
    returns, and the snapshot it took is lost.  The channel is never
    closed and [json.Marshal] has no error on a [GameState], so the two
    branches for these do not occur. *)
Definition act (h : Hub) (x : Action) : Hub :=
  match x with
  | Publish a => mkHub (fst (trySend (backlog h) a)) (frames h) (running h)
  | Connect i => mkHub (backlog h) (frames h) (upd (running h) i true)
  | Receive i writeOk =>
      if running h i then
        match recv (backlog h) with
        | None => h
        | Some (a, q) =>
            if writeOk
            then mkHub q (upd (frames h) i (frames h i ++ [a])) (running h)
            else mkHub q (frames h) (upd (running h) i false)
        end
      else h
  | Done i => mkHub (backlog h) (frames h) (upd (running h) i false)
  end.

Definition run (h : Hub) (xs : list Action) : Hub := fold_left act xs h.

Definition empty : Hub := mkHub [] (fun _ => []) (fun _ => false).

(** The receives that go through while [xs] runs from [h], in order:
    which handler took which snapshot and whether its write to the
    client succeeded. *)
Definition taken1 (h : Hub) (x : Action) : list (nat * A * bool) :=
  match x with
  | Receive i writeOk =>
      if running h i then
        match recv (backlog h) with
        | None => []
        | Some (a, _) => [(i, a, writeOk)]
        end
      else []
  | _ => []
  end.

Fixpoint taken (h : Hub) (xs : list Action) : list (nat * A * bool) :=
  match xs with
  | [] => []
  | x :: xs' => taken1 h x ++ taken (act h x) xs'
  end.

(** The snapshots the channel accepts while [xs] runs from [h]. *)
Definition sent1 (h : Hub) (x : Action) : list A :=
  match x with
  | Publish a => if snd (trySend (backlog h) a) then [a] else []
  | _ => []
  end.

Fixpoint sent (h : Hub) (xs : list Action) : list A :=
  match xs with
  | [] => []
  | x :: xs' => sent1 h x ++ sent (act h x) xs'
  end.

Definition item (t : nat * A * bool) : A := snd (fst t).

(** The receives of handler [i] that reached its client. *)
Definition delivered_to (i : nat) (ts : list (nat * A * bool)) : list A :=
  map item (filter (fun t => Nat.eqb (fst (fst t)) i && snd t) ts).

End Queue.

End Channel.

(** ** The environment of the loop *)

(** A call in Go returns or panics. *)
Inductive Completion (A : Type) : Type :=
| Returned (a : A)
| Panicked.

Arguments Returned {A} a.
Arguments Panicked {A}.

(** What [getOpenAIMove] makes of the result of [CreateChatCompletion]
    (main.go:340-345): [None] is its error, [Some cs] the contents of
    [resp.Choices].  The first choice is read without a look at the
    length of the slice, so a response without choices is an index out
    of range, a panic that nothing recovers: the process ends.
    [getAnthropicMove] checks the length first (main.go:410) and returns
    an error.  [TrimSpace] is [strings.TrimSpace]. *)
Definition getOpenAIMove_result (TrimSpace : string -> string)
    (resp : option (list string)) : Completion (string + error) :=
  match resp with
  | None => Returned (inr ErrProvider)
  | Some [] => Panicked
  | Some (content :: _) => Returned (inl (TrimSpace content))
  end.

(** Everything the loop asks of the outside, as the answers it gets.  The
    answer of a provider may depend on the prompt in any way: for one run
    that is a function of how many requests were made before.  The
    answers are those of calls that return; a run in which
    [getOpenAIMove] panics has no state after the panic. *)
Record Env : Type := mkEnv {
  (** [getOpenAIMove] at the [n]-th request of the run: [None] is an
      error, [Some m] the trimmed text of the completion. *)
  openAIReply : nat -> option string;
  (** [getAnthropicMove], likewise. *)
  anthropicReply : nat -> option string;
  (** Does the [n]-th [db.Exec] of the run succeed? *)
  execOk : nat -> bool;
  (** How many snapshots the SSE handlers take off the channel between
      the previous send of the loop and its [n]-th one. *)
  drained : nat -> nat;
  (** [time.Now()] after [n] events. *)
  now : nat -> nat
}.

(** ** The state of the process *)

Section Engine.

Context {rules : RulesEngine}.
Variable env : Env.

(** The package variables of main.go:36-43 ([db] as whether it is
    non-nil), the two locals of the running activation of [playGame],
    and the bookkeeping of the environment. *)
Record State : Type := mkState {
  db : bool;
  game : Game;
  moveHistory : list string;
  gameStateChannel : list GameState;
  lastMove : string;
  playerIndex : nat;
  moveCount : nat;
  requests : nat;
  execs : nat;
  sends : nat;
  rows : list Row;
  trace : list Event
}.

(** *** A state monad for the statements of the file *)

Definition M (A : Type) : Type := State -> A * State.

Definition ret {A : Type} (a : A) : M A := fun s => (a, s).

Definition bind {A B : Type} (m : M A) (k : A -> M B) : M B :=
  fun s => let (a, s') := m s in k a s'.

Notation "x <- m ;; k" := (bind m (fun x => k))
  (at level 61, m at next level, right associativity).
Notation "m ;;; k" := (bind m (fun _ => k))
  (at level 61, right associativity).

Definition get {A : Type} (f : State -> A) : M A := fun s => (f s, s).

Definition emit (e : Event) : M unit := fun s =>
  (tt, mkState (db s) (game s) (moveHistory s) (gameStateChannel s)
         (lastMove s) (playerIndex s) (moveCount s) (requests s)
         (execs s) (sends s) (rows s) (trace s ++ [e])).

Definition log (l : LogLine) : M unit := emit (EvLog l).

(** [time.Sleep(n * time.Second)] *)
Definition sleep (n : nat) : M unit := emit (EvSleep n).

Definition time_Now : M nat := fun s => (now env (List.length (trace s)), s).

Definition set_game (g : Game) : M unit := fun s =>
  (tt, mkState (db s) g (moveHistory s) (gameStateChannel s)
         (lastMove s) (playerIndex s) (moveCount s) (requests s)
         (execs s) (sends s) (rows s) (trace s)).

Definition set_moveHistory (h : list string) : M unit := fun s =>
  (tt, mkState (db s) (game s) h (gameStateChannel s)
         (lastMove s) (playerIndex s) (moveCount s) (requests s)
         (execs s) (sends s) (rows s) (trace s)).

Definition set_lastMove (m : string) : M unit := fun s =>
  (tt, mkState (db s) (game s) (moveHistory s) (gameStateChannel s)
         m (playerIndex s) (moveCount s) (requests s)
         (execs s) (sends s) (rows s) (trace s)).

Definition set_playerIndex (i : nat) : M unit := fun s =>
  (tt, mkState (db s) (game s) (moveHistory s) (gameStateChannel s)
         (lastMove s) i (moveCount s) (requests s)
         (execs s) (sends s) (rows s) (trace s)).

Definition set_moveCount (n : nat) : M unit := fun s =>
  (tt, mkState (db s) (game s) (moveHistory s) (gameStateChannel s)
         (lastMove s) (playerIndex s) n (requests s)
         (execs s) (sends s) (rows s) (trace s)).

(** *** The three doors to the outside *)

(** A provider call: the request is on the trace, the answer is the
    environment's. *)
Definition call_provider (reply : nat -> option string)
    (player fen : string) (isRetry : bool) (lastInvalidMove : string)
    : M (option string) := fun s =>
  (reply (requests s),
   mkState (db s) (game s) (moveHistory s) (gameStateChannel s)
     (lastMove s) (playerIndex s) (moveCount s) (S (requests s))
     (execs s) (sends s) (rows s)
     (trace s ++ [EvRequest player fen isRetry lastInvalidMove])).

(** [db.Exec(INSERT ...)]: the row is in the table when it succeeds. *)
Definition db_Exec (r : Row) : M bool := fun s =>
  let ok := execOk env (execs s) in
  (ok,
   mkState (db s) (game s) (moveHistory s) (gameStateChannel s)
     (lastMove s) (playerIndex s) (moveCount s) (requests s)
     (S (execs s)) (sends s) (if ok then rows s ++ [r] else rows s)
     (trace s ++ [EvInsert r ok])).

(** [select { case gameStateChannel <- g: ...; default: ... }].  The
    handlers have taken [drained env n] snapshots off the channel since
    the last send; the result says which branch runs. *)
Definition publish (g : GameState) : M bool := fun s =>
  let q := skipn (drained env (sends s)) (gameStateChannel s) in
  let r := Channel.trySend q g in
  (snd r,
   mkState (db s) (game s) (moveHistory s) (fst r)
     (lastMove s) (playerIndex s) (moveCount s) (requests s)
     (execs s) (S (sends s)) (rows s)
     (trace s ++ [EvOffer g (snd r)])).

(** *** The functions of main.go *)

(** main.go:87-91 *)
Definition initGame : M unit :=
  set_game NewGame ;;;
  set_moveHistory [] ;;;
  set_lastMove "".

(** main.go:261-270.  The call of the provider is one that returns, with
    a text or with an error; [getOpenAIMove_result] says on which
    response [getOpenAIMove] does not return. *)
Definition getMove (player fen : string) (isRetry : bool)
    (lastInvalidMove : string) : M (string + error) :=
  if String.eqb player "openai" then
    r <- call_provider (openAIReply env) player fen isRetry lastInvalidMove ;;
    ret (match r with Some m => inl m | None => inr ErrProvider end)
  else if String.eqb player "anthropic" then
    r <- call_provider (anthropicReply env) player fen isRetry lastInvalidMove ;;
    ret (match r with Some m => inl m | None => inr ErrProvider end)
  else ret (inr (ErrUnknownPlayer player)).

(** main.go:272-278 *)
Definition validateAndApplyMove (move : string) : M (option error) :=
  g <- get game ;;
  match MoveStr g move with
  | None => ret (Some ErrIllegalMove)
  | Some g' => set_game g' ;;; ret None
  end.

(** main.go:280-310 *)
Definition saveGameState (player move outcome : string) : M (option error) :=
  d <- get db ;;
  if negb d then ret (Some ErrDbNotInitialized)
  else
    g <- get game ;;
    h <- get moveHistory ;;
    t <- time_Now ;;
    let gameState := mkGameState 0 (FEN g) move player t h outcome in
    ok <- db_Exec (mkRow (gs_FEN gameState) (gs_LastMove gameState)
                     (gs_LastPlayer gameState)
                     (String.concat "," (gs_MoveHistory gameState))
                     (gs_GameOutcome gameState)) ;;
    if negb ok then ret (Some ErrSaving)
    else
      log (LogPlayed player move) ;;;
      sent <- publish gameState ;;
      log (if sent then LogSentAfterSave else LogSkippedAfterSave) ;;;
      ret None.

(** The [for attempts := 0; attempts < 3; attempts++] of main.go:238-256,
    by the number of rounds that are left: [attempts = 3 - remaining]. *)
Fixpoint makeMove_attempts (remaining : nat) (player fen : string)
    (lastInvalidMove : string) : M (option error) :=
  match remaining with
  | 0 => ret (Some ErrNoValidMove)
  | S remaining' =>
      let attempts := 3 - remaining in
      r <- getMove player fen (0 <? attempts) lastInvalidMove ;;
      match r with
      | inr err =>
          log (LogErrorGettingMove player (attempts + 1) err) ;;;
          makeMove_attempts remaining' player fen lastInvalidMove
      | inl move =>
          log (LogReceivedMove player move) ;;;
          v <- validateAndApplyMove move ;;
          match v with
          | Some err =>
              log (LogInvalidMove player move err) ;;;
              makeMove_attempts remaining' player fen move
          | None =>
              log (LogAppliedMove move player) ;;;
              set_lastMove move ;;;
              h <- get moveHistory ;;
              set_moveHistory (h ++ [move]) ;;;
              saveGameState player move ""
          end
      end
  end.

(** main.go:233-259 *)
Definition makeMove (player : string) : M (option error) :=
  g <- get game ;;
  let fen := FEN g in
  log (LogGettingMove player fen) ;;;
  makeMove_attempts 3 player fen "".

Definition players : list string := ["openai"; "anthropic"].

(** One round of [for game.Outcome() == chess.NoOutcome] (main.go:189-220). *)
Definition playGame_turn : M unit :=
  i <- get playerIndex ;;
  n <- get moveCount ;;
  let currentPlayer := nth i players "" in
  log (LogStartingMove (n + 1) currentPlayer) ;;;
  err <- makeMove currentPlayer ;;
  match err with
  | Some e =>
      log (LogErrorMakingMove currentPlayer e) ;;;
      sleep 5
  | None =>
      set_playerIndex ((i + 1) mod 2) ;;;
      set_moveCount (n + 1) ;;;
      g <- get game ;;
      log (LogCompletedMove (n + 1) (FEN g)) ;;;
      m <- get lastMove ;;
      h <- get moveHistory ;;
      t <- time_Now ;;
      let currentState :=
        mkGameState 0 (FEN g) m currentPlayer t h
          (Outcome_String (GetOutcome g)) in
      sent <- publish currentState ;;
      log (if sent then LogSentToChannel else LogSkippedSending) ;;;
      sleep 3
  end.

(** What follows the loop (main.go:222-230), up to the point where the
    call [playGame()] at the end has set up its locals. *)
Definition playGame_over : M unit :=
  g <- get game ;;
  log (LogGameOver (GetOutcome g)) ;;;
  i <- get playerIndex ;;
  m <- get lastMove ;;
  err <- saveGameState (nth i players "") m (Outcome_String (GetOutcome g)) ;;
  match err with
  | Some e => log (LogErrorSavingFinal e)
  | None => ret tt
  end ;;;
  log LogStartingNewGame ;;;
  initGame ;;;
  set_playerIndex 0 ;;;
  set_moveCount 0.

(** [playGame] never returns: it is the repetition of this step. *)
Definition playGame_step (s : State) : State :=
  if Outcome_eqb (GetOutcome (game s)) NoOutcome
  then snd (playGame_turn s)
  else snd (playGame_over s).

Fixpoint playGame (steps : nat) (s : State) : State :=
  match steps with
  | 0 => s
  | S k => playGame k (playGame_step s)
  end.

(** The process when [main] starts the loop (main.go:50-61): [initDB]
    has opened the database or ended the process, [initGame] has run,
    the channel is new. *)
Definition start : State :=
  mkState true NewGame [] [] "" 0 0 0 0 0 [] [].

(** *** Reading a trace *)

Definition offered (e : Event) : list GameState :=
  match e with EvOffer g _ => [g] | _ => [] end.

(** The snapshots given to the channel's [select], taken or not. *)
Definition offers (t : list Event) : list GameState := flat_map offered t.

Definition turn_of (e : Event) : list string :=
  match e with EvLog (LogStartingMove _ p) => [p] | _ => [] end.

(** The player slots of the turns, in the order they were started. *)
Definition turns (t : list Event) : list string := flat_map turn_of t.

(** The moves applied in the game that is being played: those of the
    lines "Applied move ..." after the last "Starting a new game...". *)
Definition applied_step (acc : list string) (e : Event) : list string :=
  match e with
  | EvLog LogStartingNewGame => []
  | EvLog (LogAppliedMove m _) => acc ++ [m]
  | _ => acc
  end.

Definition applied_moves (t : list Event) : list string :=
  fold_left applied_step t [].

Definition failure_of (e : Event) : list (string * error) :=
  match e with EvLog (LogErrorMakingMove p err) => [(p, err)] | _ => [] end.

(** The failed turns the loop reported: the slot and the error. *)
Definition failures (t : list Event) : list (string * error) :=
  flat_map failure_of t.

Definition sleep_of (e : Event) : list nat :=
  match e with EvSleep n => [n] | _ => [] end.

(** The pauses of the loop, in seconds. *)
Definition sleeps (t : list Event) : list nat := flat_map sleep_of t.

(** An outcome field that names a finished game. *)
Definition terminal (o : string) : bool :=
  String.eqb o "1-0" || String.eqb o "0-1" || String.eqb o "1/2-1/2".

Definition terminal_offers (t : list Event) : list GameState :=
  filter (fun g => terminal (gs_GameOutcome g)) (offers t).

End Engine.

Arguments State : clear implicits.
Arguments offers : simpl never.
Arguments turns : simpl never.
Arguments failures : simpl never.
Arguments sleeps : simpl never.
Arguments applied_moves : simpl never.
Arguments terminal_offers : simpl never.

(** ** The vocabulary of the properties *)

Section Vocabulary.

Context {rules : RulesEngine}.
Variable env : Env.

(** What no callee of the loop touches: the database handle, the locals
    of [playGame], and what the loop itself writes to the log. *)
Record Kept (s s' : State rules) : Prop := {
  kept_db : db s' = db s;
  kept_playerIndex : playerIndex s' = playerIndex s;
  kept_moveCount : moveCount s' = moveCount s;
  kept_turns : turns (trace s') = turns (trace s);
  kept_failures : failures (trace s') = failures (trace s);
  kept_sleeps : sleeps (trace s') = sleeps (trace s)
}.

(** The game and its history are as they were. *)
Record SameGame (s s' : State rules) : Prop := {
  same_game : game s' = game s;
  same_moveHistory : moveHistory s' = moveHistory s;
  same_lastMove : lastMove s' = lastMove s;
  same_applied : applied_moves (trace s') = applied_moves (trace s)
}.

(** Nothing was written and nothing was given to the channel. *)
Record Silent (s s' : State rules) : Prop := {
  silent_rows : rows s' = rows s;
  silent_offers : offers (trace s') = offers (trace s);
  silent_channel : gameStateChannel s' = gameStateChannel s;
  silent_sends : sends s' = sends s
}.

(** The snapshot that [saveGameState player move outcome] builds in [s]. *)
Definition saved_snapshot (player move outcome : string) (s : State rules)
    : GameState :=
  mkGameState 0 (FEN (game s)) move player
    (now env (List.length (trace s))) (moveHistory s) outcome.

Definition row_of (g : GameState) : Row :=
  mkRow (gs_FEN g) (gs_LastMove g) (gs_LastPlayer g)
    (String.concat "," (gs_MoveHistory g)) (gs_GameOutcome g).

(** The three ways out of [saveGameState]. *)
Inductive Saved (player move outcome : string) (s : State rules)
    : option error -> State rules -> Prop :=
| Saved_no_db s' :
    db s = false -> s' = s ->
    Saved player move outcome s (Some ErrDbNotInitialized) s'
| Saved_failed s' :
    db s = true -> execOk env (execs s) = false ->
    Silent s s' -> execs s' = S (execs s) ->
    Saved player move outcome s (Some ErrSaving) s'
| Saved_written s' :
    db s = true -> execOk env (execs s) = true ->
    rows s' = rows s ++ [row_of (saved_snapshot player move outcome s)] ->
    offers (trace s')
    = offers (trace s) ++ [saved_snapshot player move outcome s] ->
    sends s' = S (sends s) -> execs s' = S (execs s) ->
    gameStateChannel s'
    = fst (Channel.trySend
             (skipn (drained env (sends s)) (gameStateChannel s))
             (saved_snapshot player move outcome s)) ->
    Saved player move outcome s None s'.

(** The answer [getMove] gets for [player] at the [n]-th request. *)
Definition answer (player : string) (n : nat) : string + error :=
  if String.eqb player "openai" then
    match openAIReply env n with Some m => inl m | None => inr ErrProvider end
  else if String.eqb player "anthropic" then
    match anthropicReply env n with Some m => inl m | None => inr ErrProvider end
  else inr (ErrUnknownPlayer player).

(** An attempt fails: the provider call fails or the rules engine
    rejects the text. *)
Definition rejected (g : Game) (a : string + error) : bool :=
  match a with
  | inr _ => true
  | inl m => match MoveStr g m with None => true | Some _ => false end
  end.

(** The two ways out of the attempts of [makeMove], with [remaining]
    attempts to go: all of them fail, or attempt [k] is the first that
    does not, its move [m] is applied in [s1], and [saveGameState] takes
    [s1] to the final state. *)
Inductive Moved (remaining : nat) (player : string) (s : State rules)
    : option error -> State rules -> Prop :=
| Moved_exhausted s' :
    (forall k, k < remaining ->
       rejected (game s) (answer player (requests s + k)) = true) ->
    SameGame s s' -> Silent s s' -> execs s' = execs s ->
    Moved remaining player s (Some ErrNoValidMove) s'
| Moved_applied k m s1 r s' :
    k < remaining ->
    (forall j, j < k ->
       rejected (game s) (answer player (requests s + j)) = true) ->
    answer player (requests s + k) = inl m ->
    MoveStr (game s) m = Some (game s1) ->
    moveHistory s1 = moveHistory s ++ [m] ->
    lastMove s1 = m ->
    applied_moves (trace s1) = applied_moves (trace s) ++ [m] ->
    Silent s s1 -> execs s1 = execs s -> db s1 = db s ->
    Saved player m "" s1 r s' -> SameGame s1 s' ->
    Moved remaining player s r s'.

(** The state in which [saveGameState] is called after [move] was
    accepted in [s] with the new game [g']. *)
Definition move_applied (g' : Game) (move player : string) (s : State rules)
    : State rules :=
  mkState (db s) g' (moveHistory s ++ [move]) (gameStateChannel s) move
    (playerIndex s) (moveCount s) (requests s) (execs s) (sends s) (rows s)
    ((trace s ++ [EvLog (LogReceivedMove player move)])
       ++ [EvLog (LogAppliedMove move player)]).

Definition in_progress (s : State rules) : bool :=
  Outcome_eqb (GetOutcome (game s)) NoOutcome.

(** [players[playerIndex]].  The index is 0 or 1 in every state of a run
    (lemma [playerIndex_in_range]), so the default of [nth] is never
    read. *)
Definition slot (s : State rules) : string := nth (playerIndex s) players "".

(** Attempt [k] of the turn that starts in [s] is the first whose move
    the rules engine accepts, and the move is [m]. *)
Definition first_accepted (s : State rules) (k : nat) (m : string) : Prop :=
  k < 3
  /\ (forall j, j < k ->
        rejected (game s) (answer (slot s) (requests s + j)) = true)
  /\ answer (slot s) (requests s + k) = inl m.

(** The four things a step of [playGame] can be: a turn without a legal
    move, a turn whose move is applied but not written, a turn that is
    completed, and the end of a game. *)
Inductive Step (s : State rules) : State rules -> Prop :=
| Step_exhausted s' :
    in_progress s = true ->
    (forall k, k < 3 ->
       rejected (game s) (answer (slot s) (requests s + k)) = true) ->
    SameGame s s' -> Silent s s' ->
    playerIndex s' = playerIndex s -> moveCount s' = moveCount s ->
    turns (trace s') = turns (trace s) ++ [slot s] ->
    failures (trace s') = failures (trace s) ++ [(slot s, ErrNoValidMove)] ->
    sleeps (trace s') = sleeps (trace s) ++ [5] ->
    Step s s'
| Step_unsaved k m e s' :
    in_progress s = true ->
    first_accepted s k m ->
    MoveStr (game s) m = Some (game s') ->
    moveHistory s' = moveHistory s ++ [m] -> lastMove s' = m ->
    applied_moves (trace s') = applied_moves (trace s) ++ [m] ->
    Silent s s' ->
    (db s = false /\ e = ErrDbNotInitialized
     \/ db s = true /\ execOk env (execs s) = false /\ e = ErrSaving) ->
    playerIndex s' = playerIndex s -> moveCount s' = moveCount s ->
    turns (trace s') = turns (trace s) ++ [slot s] ->
    failures (trace s') = failures (trace s) ++ [(slot s, e)] ->
    sleeps (trace s') = sleeps (trace s) ++ [5] ->
    Step s s'
| Step_completed k m t1 t2 s' :
    in_progress s = true ->
    first_accepted s k m ->
    MoveStr (game s) m = Some (game s') ->
    moveHistory s' = moveHistory s ++ [m] -> lastMove s' = m ->
    applied_moves (trace s') = applied_moves (trace s) ++ [m] ->
    db s = true -> execOk env (execs s) = true ->
    rows s'
    = rows s ++ [mkRow (FEN (game s')) m (slot s)
                   (String.concat "," (moveHistory s ++ [m])) ""] ->
    offers (trace s')
    = offers (trace s)
      ++ [mkGameState 0 (FEN (game s')) m (slot s) t1 (moveHistory s ++ [m]) "";
          mkGameState 0 (FEN (game s')) m (slot s) t2 (moveHistory s ++ [m])
            (Outcome_String (GetOutcome (game s')))] ->
    playerIndex s' = (playerIndex s + 1) mod 2 ->
    moveCount s' = moveCount s + 1 ->
    turns (trace s') = turns (trace s) ++ [slot s] ->
    failures (trace s') = failures (trace s) ->
    sleeps (trace s') = sleeps (trace s) ++ [3] ->
    Step s s'
| Step_over s' :
    in_progress s = false ->
    game s' = NewGame -> moveHistory s' = [] -> lastMove s' = "" ->
    playerIndex s' = 0 -> moveCount s' = 0 ->
    applied_moves (trace s') = [] ->
    turns (trace s') = turns (trace s) ->
    failures (trace s') = failures (trace s) ->
    sleeps (trace s') = sleeps (trace s) ->
    requests s' = requests s ->
    ((exists t,
        db s = true /\ execOk env (execs s) = true
        /\ rows s'
           = rows s ++ [mkRow (FEN (game s)) (lastMove s) (slot s)
                          (String.concat "," (moveHistory s))
                          (Outcome_String (GetOutcome (game s)))]
        /\ offers (trace s')
           = offers (trace s)
             ++ [mkGameState 0 (FEN (game s)) (lastMove s) (slot s) t
                   (moveHistory s) (Outcome_String (GetOutcome (game s)))])
     \/ ((db s = false \/ execOk env (execs s) = false)
         /\ rows s' = rows s /\ offers (trace s') = offers (trace s))) ->
    Step s s'.

(** The first of the next [remaining] answers for [player] that the
    rules engine accepts in [g]; [n] is the number of the next request. *)
Fixpoint first_legal (g : Game) (player : string) (n remaining : nat)
    : option string :=
  match remaining with
  | 0 => None
  | S r =>
      if rejected g (answer player n)
      then first_legal g player (S n) r
      else match answer player n with
           | inl m => Some m
           | inr _ => None
           end
  end.

(** The move that the turn starting in [s] applies, if it finds one in
    its three attempts. *)
Definition acquired (s : State rules) : option string :=
  first_legal (game s) (slot s) (requests s) 3.

(** The snapshot [saveGameState] offers after the move [m] of a turn. *)
Definition save_snapshot (s s' : State rules) (m : string) (t : nat)
    : GameState :=
  mkGameState 0 (FEN (game s')) m (slot s) t (moveHistory s ++ [m]) "".

(** The snapshot the loop offers after the same move. *)
Definition loop_snapshot (s s' : State rules) (m : string) (t : nat)
    : GameState :=
  mkGameState 0 (FEN (game s')) m (slot s) t (moveHistory s ++ [m])
    (Outcome_String (GetOutcome (game s'))).

(** What an applied move does to the game, written or not. *)
Record Played (s : State rules) (m : string) (s' : State rules) : Prop := {
  played_move : MoveStr (game s) m = Some (game s');
  played_history : moveHistory s' = moveHistory s ++ [m];
  played_lastMove : lastMove s' = m;
  played_applied : applied_moves (trace s') = applied_moves (trace s) ++ [m];
  played_turns : turns (trace s') = turns (trace s) ++ [slot s]
}.

(** A completed turn: the row is written, two snapshots are offered, the
    other slot is next. *)
Record Completed (s : State rules) (m : string) (s' : State rules) : Prop := {
  completed_rows :
    rows s' = rows s ++ [mkRow (FEN (game s')) m (slot s)
                           (String.concat "," (moveHistory s ++ [m])) ""];
  completed_offers :
    exists t1 t2,
      offers (trace s')
      = offers (trace s) ++ [save_snapshot s s' m t1; loop_snapshot s s' m t2];
  completed_playerIndex : playerIndex s' = (playerIndex s + 1) mod 2;
  completed_moveCount : moveCount s' = moveCount s + 1;
  completed_failures : failures (trace s') = failures (trace s);
  completed_sleeps : sleeps (trace s') = sleeps (trace s) ++ [3]
}.

(** A turn whose move is applied and whose write fails with [e]. *)
Record Unsaved (s : State rules) (e : error) (s' : State rules) : Prop := {
  unsaved_silent : Silent s s';
  unsaved_playerIndex : playerIndex s' = playerIndex s;
  unsaved_moveCount : moveCount s' = moveCount s;
  unsaved_failures : failures (trace s') = failures (trace s) ++ [(slot s, e)];
  unsaved_sleeps : sleeps (trace s') = sleeps (trace s) ++ [5]
}.

(** The error of [saveGameState] in [s], if its write fails. *)
Definition save_error (s : State rules) : option error :=
  if negb (db s) then Some ErrDbNotInitialized
  else if negb (execOk env (execs s)) then Some ErrSaving
  else None.

(** The snapshot of the call of [saveGameState] that follows the loop. *)
Definition final_snapshot (s : State rules) (t : nat) : GameState :=
  mkGameState 0 (FEN (game s)) (lastMove s) (slot s) t (moveHistory s)
    (Outcome_String (GetOutcome (game s))).

(** The state in which the next activation of [playGame] starts. *)
Record Restarted (s s' : State rules) : Prop := {
  restarted_game : game s' = NewGame;
  restarted_history : moveHistory s' = [];
  restarted_lastMove : lastMove s' = "";
  restarted_playerIndex : playerIndex s' = 0;
  restarted_moveCount : moveCount s' = 0;
  restarted_applied : applied_moves (trace s') = [];
  restarted_turns : turns (trace s') = turns (trace s);
  restarted_failures : failures (trace s') = failures (trace s);
  restarted_sleeps : sleeps (trace s') = sleeps (trace s);
  restarted_requests : requests s' = requests s
}.

(** The backlog never holds more than the channel was made for. *)
Definition Bounded (s : State rules) : Prop :=
  List.length (gameStateChannel s) <= Channel.capacity.

End Vocabulary.

Arguments slot : simpl never.
Arguments acquired : simpl never.

(** ** A concrete game: the fool's mate

    The line 1. f3 e5 2. g4 Qh4# and nothing else: the engine takes the
    next move of the line and rejects every other text, as the chess
    library does with these four moves played in this order from the
    initial position. *)

Module FoolsMate.

Definition line : list string := ["f3"; "e5"; "g4"; "Qh4#"].

Definition fens : list string :=
  ["rnbqkbnr/pppppppp/8/8/8/8/PPPPPPPP/RNBQKBNR w KQkq - 0 1";
   "rnbqkbnr/pppppppp/8/8/8/5P2/PPPPP1PP/RNBQKBNR b KQkq - 0 1";
   "rnbqkbnr/pppp1ppp/8/4p3/8/5P2/PPPPP1PP/RNBQKBNR w KQkq e6 0 2";
   "rnbqkbnr/pppp1ppp/8/4p3/6P1/5P2/PPPPP2P/RNBQKBNR b KQkq g3 0 2";
   "rnb1kbnr/pppp1ppp/8/4p3/6Pq/5P2/PPPPP2P/RNBQKBNR w KQkq - 1 3"].

(** A game is the number of moves of the line that were played. *)
Definition move (g : nat) (m : string) : option nat :=
  match nth_error line g with
  | Some m' => if String.eqb m m' then Some (S g) else None
  | None => None
  end.

Definition outcome (g : nat) : Outcome :=
  if 4 <=? g then BlackWon else NoOutcome.

#[export] Instance engine : RulesEngine := {|
  Game := nat;
  NewGame := 0;
  MoveStr := move;
  GetOutcome := outcome;
  FEN := fun g => nth g fens ""
|}.

(** The providers play the line, game after game: white's moves come
    from OpenAI, black's from Anthropic. *)
Definition script (n : nat) : option string :=
  Some (nth (n mod 4) line "").

(** Both providers answer with an illegal text. *)
Definition z9 (n : nat) : option string := Some "z9".

(** Every write succeeds, nobody reads the channel, the clock stands. *)
Definition quiet : Env :=
  mkEnv script script (fun _ => true) (fun _ => 0) (fun _ => 0).

(** As [quiet], but the first INSERT of the run fails. *)
Definition first_write_fails : Env :=
  mkEnv script script (fun n => negb (Nat.eqb n 0)) (fun _ => 0) (fun _ => 0).

(** As [quiet], but no provider ever finds a legal move. *)
Definition stubborn : Env :=
  mkEnv z9 z9 (fun _ => true) (fun _ => 0) (fun _ => 0).

End FoolsMate.

(** The snapshot that [saveGameState] builds after 1. f3. *)
Definition opening : GameState :=
  mkGameState 0 "rnbqkbnr/pppppppp/8/8/8/5P2/PPPPP1PP/RNBQKBNR b KQkq - 0 1"
    "f3" "openai" 0 ["f3"] "".

(** ** The vocabulary of the further properties *)

Section Replay.

Context {rules : RulesEngine}.

(** The moves [ms] played one after the other from [g], as far as the
    rules engine accepts them. *)
Fixpoint replay (g : Game) (ms : list string) : option Game :=
  match ms with
  | [] => Some g
  | m :: ms' =>
      match MoveStr g m with
      | Some g' => replay g' ms'
      | None => None
      end
  end.

(** What every snapshot of a run is: its identifier is Go's zero value,
    its history is not empty and ends with its last move, its player is
    one of the two slots, and its position is the one the rules engine
    reaches with the history. *)
Definition Sound_snapshot (g : GameState) : Prop :=
  gs_ID g = 0
  /\ gs_MoveHistory g <> []
  /\ gs_LastMove g = last (gs_MoveHistory g) ""
  /\ (gs_LastPlayer g = "openai" \/ gs_LastPlayer g = "anthropic")
  /\ exists g', replay NewGame (gs_MoveHistory g) = Some g'
                /\ gs_FEN g = FEN g'.

(** The row and the snapshot say the same, the outcome apart. *)
Definition row_matches (r : Row) (g : GameState) : Prop :=
  row_fen r = gs_FEN g
  /\ row_last_move r = gs_LastMove g
  /\ row_last_player r = gs_LastPlayer g
  /\ row_move_history r = String.concat "," (gs_MoveHistory g).

(** With no reader, the backlog is the beginning of what was offered. *)
Definition Oldest (s : State rules) : Prop :=
  gameStateChannel s = firstn Channel.capacity (offers (trace s)).

End Replay.

Section Sequences.

Context {A : Type}.

(** [l1] is [l2] with some elements left out, the others in their
    order. *)
Inductive Subseq : list A -> list A -> Prop :=
| Subseq_nil : Subseq [] []
| Subseq_skip a l1 l2 : Subseq l1 l2 -> Subseq l1 (a :: l2)
| Subseq_take a l1 l2 : Subseq l1 l2 -> Subseq (a :: l1) (a :: l2).

(** Is [x] the arrival of a request for handler [i]? *)
Definition connects (i : nat) (x : Channel.Action (A := A)) : bool :=
  match x with
  | Channel.Connect j => Nat.eqb j i
  | _ => false
  end.

(** No request for handler [i] arrives in [xs]. *)
Definition no_connect (i : nat) (xs : list (Channel.Action (A := A))) : bool :=
  forallb (fun x => negb (connects i x)) xs.

End Sequences.

(** ** The requests of a turn *)

Definition ask_of (e : Event) : list (string * string * bool * string) :=
  match e with
  | EvRequest player fen isRetry lastInvalidMove =>
      [(player, fen, isRetry, lastInvalidMove)]
  | _ => []
  end.

(** The calls of the providers, with the arguments [getMove] passes on:
    the player, the position, the retry flag and the last invalid move. *)
Definition asked (t : list Event) : list (string * string * bool * string) :=
  flat_map ask_of t.

Arguments asked : simpl never.

(** The two names [getMove] knows. *)
Definition is_provider (player : string) : bool :=
  String.eqb player "openai" || String.eqb player "anthropic".

Section Feedback.

Context {rules : RulesEngine}.
Variable env : Env.

(** The move named in the request of attempt [k] of a turn whose first
    request is number [n]: the text of the latest earlier attempt in
    which the provider answered at all, none at the first attempt. *)
Fixpoint feedback (player : string) (n k : nat) : string :=
  match k with
  | 0 => ""
  | S j =>
      match answer env player (n + j) with
      | inl m => m
      | inr _ => feedback player n j
      end
  end.

(** The number of attempts a turn makes when [remaining] are allowed:
    up to and with the first one that does not fail. *)
Fixpoint attempts_used (g : Game) (player : string) (n remaining : nat)
    : nat :=
  match remaining with
  | 0 => 0
  | S r =>
      if rejected g (answer env player n)
      then S (attempts_used g player (S n) r)
      else 1
  end.

(** The request of attempt [j] of the turn of [player] that starts in
    [s]. *)
Definition request_of (player : string) (s : State rules) (j : nat)
    : string * string * bool * string :=
  (player, FEN (game s), 0 <? j, feedback player (requests s) j).

End Feedback.

(** ** The prompt of the providers (main.go:314-326 and 350-362)

    [getOpenAIMove] and [getAnthropicMove] build the same text with the
    same [fmt.Sprintf]; [history] is the package variable [moveHistory]
    at the time of the call. *)

Definition newline : string := String (Ascii.ascii_of_nat 10) EmptyString.

Definition dquote : string := String (Ascii.ascii_of_nat 34) EmptyString.

Definition retryMessage (isRetry : bool) (lastInvalidMove : string) : string :=
  if isRetry
  then ("Your previous move '" ++ lastInvalidMove
        ++ "' was invalid. Please try again with a valid move. ")%string
  else EmptyString.

Definition prompt (fen : string) (isRetry : bool) (lastInvalidMove : string)
    (history : list string) : string :=
  (retryMessage isRetry lastInvalidMove
   ++ "You are playing a game of chess. The current board state in FEN notation is:"
   ++ newline ++ fen ++ newline ++ newline
   ++ "The move history (in algebraic notation) is:"
   ++ newline ++ String.concat ", " history ++ newline ++ newline
   ++ "Please provide your next move in standard algebraic notation (e.g., "
   ++ dquote ++ "e4" ++ dquote ++ ", " ++ dquote ++ "Nf3" ++ dquote ++ ", "
   ++ dquote ++ "O-O" ++ dquote ++ ")." ++ newline
   ++ "Your move must be legal according to the current board state and chess rules."
   ++ newline ++ "Respond with only the move, nothing else.")%string.

(** An environment in which the first request of the run fails and
    every later one is answered with f3. *)
Definition flaky : Env :=
  mkEnv (fun n => if Nat.eqb n 0 then None else Some "f3")
    (fun n => if Nat.eqb n 0 then None else Some "f3")
    (fun _ => true) (fun _ => 0) (fun _ => 0).

(** ** The client of the stream: the hook [useSSE]

    The hook keeps three things: [data] and [error], which it returns,
    and [eventSourceRef].  The event sources it creates are told apart by
    a number; [open_sources] are those that were created and not closed,
    the connections the server sees.  [parse] is [JSON.parse]: [None]
    when it throws, [Some None] for the text null. *)

Module UseSSE.

(** The [Error] objects of the hook. *)
Inductive HookError : Type :=
| FailedToParse                (* new Error("Failed to parse SSE data") *)
| SSEError                     (* new Error("SSE error") *)
| Given (message : string)     (* err, when err instanceof Error *).

Section Hook.

Context {T : Type}.
Variable parse : string -> option (option T).

Record Hook : Type := mkHook {
  data : option T;
  error : option HookError;
  eventSourceRef : option nat;
  created : nat;
  open_sources : list nat
}.

(** The hook before its effect has run. *)
Definition initial (initialState : option T) : Hook :=
  mkHook initialState None None 0 [].

(** [closeEventSource] *)
Definition closeEventSource (h : Hook) : Hook :=
  match eventSourceRef h with
  | Some id =>
      mkHook (data h) (error h) None (created h)
        (filter (fun j => negb (Nat.eqb j id)) (open_sources h))
  | None => h
  end.

(** [setupSSE] *)
Definition setupSSE (h : Hook) : Hook :=
  let h1 := closeEventSource h in
  mkHook (data h1) None (Some (created h1)) (S (created h1))
    (created h1 :: open_sources h1).

(** [newEventSource.onmessage] *)
Definition onmessage (text : string) (h : Hook) : Hook :=
  match parse text with
  | Some parsedData =>
      mkHook parsedData (error h) (eventSourceRef h) (created h)
        (open_sources h)
  | None =>
      mkHook (data h) (Some FailedToParse) (eventSourceRef h) (created h)
        (open_sources h)
  end.

(** [newEventSource.onerror]; [err] is the message of the argument when
    it is an [Error]. *)
Definition onerror (err : option string) (h : Hook) : Hook :=
  closeEventSource
    (mkHook (data h)
       (Some (match err with Some m => Given m | None => SSEError end))
       (eventSourceRef h) (created h) (open_sources h)).

(** What happens to a mounted hook.  The effect runs [setupSSE] and its
    cleanup is [closeEventSource]; [refresh] is [setupSSE] again.  An
    event source that was closed dispatches nothing. *)
Inductive Occurrence : Type :=
| Effect
| Cleanup
| Refresh
| Message (id : nat) (text : string)
| Failure (id : nat) (err : option string).

Definition is_open (id : nat) (h : Hook) : bool :=
  existsb (Nat.eqb id) (open_sources h).

Definition occur (h : Hook) (o : Occurrence) : Hook :=
  match o with
  | Effect | Refresh => setupSSE h
  | Cleanup => closeEventSource h
  | Message id text => if is_open id h then onmessage text h else h
  | Failure id err => if is_open id h then onerror err h else h
  end.

Definition life (h : Hook) (os : list Occurrence) : Hook :=
  fold_left occur os h.

(** The sources that are open are exactly the one the ref holds. *)
Definition tracked (h : Hook) : Prop :=
  open_sources h = match eventSourceRef h with
                   | Some id => [id]
                   | None => []
                   end.

End Hook.

End UseSSE.

(** * Properties *)

(** ** Reading a trace that grows *)

Section TraceLemmas.

Context {rules : RulesEngine}.

Lemma offers_snoc (t : list Event) (e : Event) :
  offers (t ++ [e]) = offers t ++ offered e.
Proof. unfold offers. rewrite flat_map_app. cbn. now rewrite app_nil_r. Qed.

Lemma turns_snoc (t : list Event) (e : Event) :
  turns (t ++ [e]) = turns t ++ turn_of e.
Proof. unfold turns. rewrite flat_map_app. cbn. now rewrite app_nil_r. Qed.

Lemma failures_snoc (t : list Event) (e : Event) :
  failures (t ++ [e]) = failures t ++ failure_of e.
Proof. unfold failures. rewrite flat_map_app. cbn. now rewrite app_nil_r. Qed.

Lemma sleeps_snoc (t : list Event) (e : Event) :
  sleeps (t ++ [e]) = sleeps t ++ sleep_of e.
Proof. unfold sleeps. rewrite flat_map_app. cbn. now rewrite app_nil_r. Qed.

Lemma applied_moves_snoc (t : list Event) (e : Event) :
  applied_moves (t ++ [e]) = applied_step (applied_moves t) e.
Proof. unfold applied_moves. now rewrite fold_left_app. Qed.

Lemma terminal_offers_snoc (t : list Event) (e : Event) :
  terminal_offers (t ++ [e])
  = terminal_offers t
    ++ filter (fun g => terminal (gs_GameOutcome g)) (offered e).
Proof. unfold terminal_offers. now rewrite offers_snoc, filter_app. Qed.

End TraceLemmas.

Create Rewrite HintDb trace.
#[export] Hint Rewrite @offers_snoc @turns_snoc @failures_snoc @sleeps_snoc
  @applied_moves_snoc @terminal_offers_snoc @app_nil_r : trace.

(** ** What the calls of the loop do to the state *)

Section Calls.

Context {rules : RulesEngine}.
Variable env : Env.

Ltac digest :=
  repeat match goal with
    | H : Kept _ _ |- _ => destruct H
    | H : SameGame _ _ |- _ => destruct H
    | H : Silent _ _ |- _ => destruct H
    end;
  cbn in *; autorewrite with trace in *; cbn in *.

Ltac crunch :=
  repeat split; cbn; autorewrite with trace; cbn; autorewrite with trace;
  try reflexivity; try assumption.

Lemma saveGameState_cases (player move outcome : string) (s : State rules) :
  let r := saveGameState env player move outcome s in
  Saved env player move outcome s (fst r) (snd r)
  /\ Kept s (snd r) /\ SameGame s (snd r)
  /\ requests (snd r) = requests s.
Proof.
  unfold saveGameState, bind, get, time_Now, db_Exec, publish, log, emit, ret.
  destruct (db s) eqn:Hdb; cbn.
  - destruct (execOk env (execs s)) eqn:Hex; cbn.
    + destruct (Channel.trySend _ _) as [q []] eqn:Hsend; cbn;
        (split; [ apply Saved_written | ]; crunch);
        unfold saved_snapshot; now rewrite Hsend.
    + split; [ | crunch ].
      apply Saved_failed; crunch.
  - split; [ | crunch ].
    now apply Saved_no_db.
Qed.

Lemma Kept_trans (a b c : State rules) : Kept a b -> Kept b c -> Kept a c.
Proof. intros [] []; split; congruence. Qed.

Lemma SameGame_trans (a b c : State rules) :
  SameGame a b -> SameGame b c -> SameGame a c.
Proof. intros [] []; split; congruence. Qed.

Lemma Silent_trans (a b c : State rules) :
  Silent a b -> Silent b c -> Silent a c.
Proof. intros [] []; split; congruence. Qed.

(** A failed attempt in front of the attempts that are left. *)
Lemma Moved_after_failure (remaining : nat) (player : string)
    (s s2 : State rules) (r : option error) (s' : State rules) :
  rejected (game s) (answer env player (requests s)) = true ->
  (forall n, answer env player (requests s2 + n) = answer env player (requests s + S n)) ->
  SameGame s s2 -> Silent s s2 -> execs s2 = execs s -> db s2 = db s ->
  Moved env remaining player s2 r s' ->
  Moved env (S remaining) player s r s'.
Proof.
  intros Hrej Hshift Hgame Hsil Hex Hdb Hm.
  assert (Hfirst : forall k, (forall j, j < k ->
            rejected (game s2) (answer env player (requests s2 + j)) = true) ->
            forall j, j < S k ->
            rejected (game s) (answer env player (requests s + j)) = true).
  { intros k Hall [|j] Hj.
    - now rewrite Nat.add_0_r.
    - rewrite <- Hshift, <- (same_game _ _ Hgame). apply Hall. lia. }
  destruct Hgame as [Hg Hh Hl Ha].
  destruct Hm as [s' Hall Hg' Hs' He'
                 | k m s1 r s' Hk Hall Hans Hmv Hh1 Hl1 Ha1 Hs1 He1 Hd1 Hsv Hg1].
  - apply Moved_exhausted.
    + now apply Hfirst.
    + eapply SameGame_trans; [ split; eassumption | exact Hg' ].
    + eapply Silent_trans; eassumption.
    + congruence.
  - apply (Moved_applied env (S remaining) player s (S k) m s1); try assumption.
    + lia.
    + now apply Hfirst.
    + now rewrite <- Hshift.
    + now rewrite <- Hg.
    + now rewrite <- Hh.
    + now rewrite <- Ha.
    + eapply Silent_trans; eassumption.
    + congruence.
    + congruence.
Qed.

Lemma getMove_cases (player fen : string) (isRetry : bool)
    (lastInvalidMove : string) (s : State rules) :
  exists s2,
    getMove env player fen isRetry lastInvalidMove s
    = (answer env player (requests s), s2)
    /\ Kept s s2 /\ SameGame s s2 /\ Silent s s2
    /\ execs s2 = execs s
    /\ requests s2 <= S (requests s)
    /\ (forall n, answer env player (requests s2 + n)
                 = answer env player (requests s + S n)).
Proof.
  unfold getMove, answer, call_provider, bind, ret.
  destruct (String.eqb player "openai");
    [ | destruct (String.eqb player "anthropic") ];
    eexists; (split; [ reflexivity | ]); crunch;
    try (cbn; lia); intros n; cbn; try reflexivity;
    now rewrite Nat.add_succ_r.
Qed.

(** One round of the attempts. *)
Lemma makeMove_attempts_round (n : nat) (player fen last : string)
    (s : State rules) :
  makeMove_attempts env (S n) player fen last s
  = let (a, s2) := getMove env player fen (0 <? 3 - S n) last s in
    match a with
    | inr e =>
        makeMove_attempts env n player fen last
          (snd (log (LogErrorGettingMove player (3 - S n + 1) e) s2))
    | inl m =>
        match MoveStr (game s2) m with
        | None =>
            makeMove_attempts env n player fen m
              (snd (log (LogInvalidMove player m ErrIllegalMove)
                      (snd (log (LogReceivedMove player m) s2))))
        | Some g' => saveGameState env player m "" (move_applied g' m player s2)
        end
    end.
Proof.
  cbn [makeMove_attempts]. unfold bind at 1.
  destruct (getMove env player fen (0 <? 3 - S n) last s) as [[m|e] s2].
  - unfold bind, log, emit, validateAndApplyMove, get, ret, set_game,
      set_lastMove, set_moveHistory, move_applied.
    cbn. destruct (MoveStr (game s2) m); reflexivity.
  - reflexivity.
Qed.

Lemma makeMove_attempts_cases (remaining : nat) (player fen : string) :
  forall (last : string) (s : State rules) (r : option error)
         (s' : State rules),
    makeMove_attempts env remaining player fen last s = (r, s') ->
    Moved env remaining player s r s'
    /\ Kept s s'
    /\ requests s' <= requests s + remaining.
Proof.
  induction remaining as [|n IH]; intros last s r s' Heq.
  - cbn in Heq. injection Heq as <- <-. split; [ | crunch; lia ].
    apply Moved_exhausted; crunch. intros k Hk. lia.
  - rewrite makeMove_attempts_round in Heq.
    destruct (getMove_cases player fen (0 <? 3 - S n) last s)
      as (s2 & Hget & Hk2 & Hg2 & Hs2 & He2 & Hr2 & Hshift).
    rewrite Hget in Heq.
    destruct (answer env player (requests s)) as [m|e] eqn:Hans.
    + destruct (MoveStr (game s2) m) as [g'|] eqn:Hmv.
      * pose proof (saveGameState_cases player m "" (move_applied g' m player s2))
          as (Hsv & Hk & Hg & Hr).
        rewrite Heq in Hsv, Hk, Hg, Hr. cbn [fst snd] in *.
        split; [ | split ].
        -- apply (Moved_applied env (S n) player s 0 m (move_applied g' m player s2)).
           ++ lia.
           ++ intros j Hj. lia.
           ++ now rewrite Nat.add_0_r.
           ++ cbn. now rewrite <- (same_game _ _ Hg2).
           ++ cbn. now rewrite (same_moveHistory _ _ Hg2).
           ++ reflexivity.
           ++ cbn. autorewrite with trace. cbn.
              now rewrite (same_applied _ _ Hg2).
           ++ destruct Hs2. crunch.
           ++ exact He2.
           ++ cbn. apply (kept_db _ _ Hk2).
           ++ exact Hsv.
           ++ exact Hg.
        -- eapply Kept_trans; [ exact Hk2 | ].
           eapply Kept_trans; [ | exact Hk ].
           crunch.
        -- rewrite Hr. cbn. lia.
      * apply IH in Heq. destruct Heq as (Hm & Hk & Hr).
        cbn in Hr.
        split; [ | split ].
        -- eapply Moved_after_failure; [ | | | | | | exact Hm ].
           ++ rewrite Hans. cbn. rewrite <- (same_game _ _ Hg2).
              now rewrite Hmv.
           ++ exact Hshift.
           ++ destruct Hg2. crunch.
           ++ destruct Hs2. crunch.
           ++ exact He2.
           ++ cbn. apply (kept_db _ _ Hk2).
        -- eapply Kept_trans; [ exact Hk2 | ].
           eapply Kept_trans; [ | exact Hk ].
           crunch.
        -- lia.
    + apply IH in Heq. destruct Heq as (Hm & Hk & Hr).
      cbn in Hr.
      split; [ | split ].
      -- eapply Moved_after_failure; [ | | | | | | exact Hm ].
         ++ now rewrite Hans.
         ++ exact Hshift.
         ++ destruct Hg2. crunch.
         ++ destruct Hs2. crunch.
         ++ exact He2.
         ++ cbn. apply (kept_db _ _ Hk2).
      -- eapply Kept_trans; [ exact Hk2 | ].
         eapply Kept_trans; [ | exact Hk ].
         crunch.
      -- lia.
Qed.

(** The first lines of [makeMove] change nothing the attempts look at. *)
Lemma Moved_from (n : nat) (player : string) (s s0 : State rules)
    (r : option error) (s' : State rules) :
  SameGame s s0 -> Silent s s0 -> execs s0 = execs s -> db s0 = db s ->
  requests s0 = requests s ->
  Moved env n player s0 r s' -> Moved env n player s r s'.
Proof.
  intros [Hg Hh Hl Ha] Hs He Hd Hr Hm.
  destruct Hm as [s' Hall Hg' Hs' He'
                 | k m s1 r s' Hk Hall Hans Hmv Hh1 Hl1 Ha1 Hs1 He1 Hd1 Hsv Hg1].
  - apply Moved_exhausted.
    + intros k Hk. rewrite <- Hg, <- Hr. now apply Hall.
    + eapply SameGame_trans; [ split; eassumption | exact Hg' ].
    + eapply Silent_trans; eassumption.
    + congruence.
  - apply (Moved_applied env n player s k m s1); try assumption.
    + intros j Hj. rewrite <- Hg, <- Hr. now apply Hall.
    + now rewrite <- Hr.
    + now rewrite <- Hg.
    + now rewrite <- Hh.
    + now rewrite <- Ha.
    + eapply Silent_trans; eassumption.
    + congruence.
    + congruence.
Qed.

Lemma makeMove_unfold (player : string) (s : State rules) :
  makeMove env player s
  = makeMove_attempts env 3 player (FEN (game s)) ""
      (snd (log (LogGettingMove player (FEN (game s))) s)).
Proof. reflexivity. Qed.

Lemma makeMove_cases (player : string) (s : State rules)
    (r : option error) (s' : State rules) :
  makeMove env player s = (r, s') ->
  Moved env 3 player s r s' /\ Kept s s' /\ requests s' <= requests s + 3.
Proof.
  rewrite makeMove_unfold. intros Heq.
  apply makeMove_attempts_cases in Heq. destruct Heq as (Hm & Hk & Hr).
  split; [ | split ].
  - eapply Moved_from; [ | | | | | exact Hm ]; crunch.
  - eapply Kept_trans; [ | exact Hk ]. crunch.
  - exact Hr.
Qed.

(** If every attempt fails, [makeMove] gives up and has changed nothing. *)
Lemma Moved_all_rejected (n : nat) (player : string) (s : State rules)
    (r : option error) (s' : State rules) :
  (forall k, k < n ->
     rejected (game s) (answer env player (requests s + k)) = true) ->
  Moved env n player s r s' ->
  r = Some ErrNoValidMove /\ SameGame s s' /\ Silent s s'
  /\ execs s' = execs s.
Proof.
  intros Hall Hm.
  destruct Hm as [s' _ Hg' Hs' He'
                 | k m s1 r s' Hk _ Hans Hmv _ _ _ _ _ _ _ _].
  - auto.
  - specialize (Hall k Hk). rewrite Hans in Hall. cbn in Hall.
    rewrite Hmv in Hall. discriminate.
Qed.

(** If attempt [k] is the first that the rules engine accepts, the move
    of that attempt is the one applied. *)
Lemma Moved_first_accepted (n : nat) (player : string) (s : State rules)
    (r : option error) (s' : State rules) (k : nat) (m : string) (g' : Game) :
  k < n ->
  (forall j, j < k ->
     rejected (game s) (answer env player (requests s + j)) = true) ->
  answer env player (requests s + k) = inl m ->
  MoveStr (game s) m = Some g' ->
  Moved env n player s r s' ->
  exists s1,
    game s1 = g' /\ moveHistory s1 = moveHistory s ++ [m]
    /\ lastMove s1 = m
    /\ applied_moves (trace s1) = applied_moves (trace s) ++ [m]
    /\ Silent s s1 /\ execs s1 = execs s /\ db s1 = db s
    /\ Saved env player m "" s1 r s' /\ SameGame s1 s'.
Proof.
  intros Hk Hbefore Hans Hmv Hm.
  destruct Hm as [s' Hall _ _ _
                 | k' m' s1 r s' Hk' Hall Hans' Hmv' Hh1 Hl1 Ha1 Hs1 He1 Hd1 Hsv Hg1].
  - specialize (Hall k Hk). rewrite Hans in Hall. cbn in Hall.
    rewrite Hmv in Hall. discriminate.
  - assert (k' = k) as ->.
    { destruct (Nat.lt_trichotomy k' k) as [Hlt | [Heq | Hgt]].
      - specialize (Hbefore k' Hlt). rewrite Hans' in Hbefore.
        cbn in Hbefore. rewrite Hmv' in Hbefore. discriminate.
      - exact Heq.
      - specialize (Hall k Hgt). rewrite Hans in Hall. cbn in Hall.
        rewrite Hmv in Hall. discriminate. }
    assert (m' = m) as -> by congruence.
    exists s1.
    repeat (split; [ solve [ assumption | congruence ] | ]). assumption.
Qed.

(** ** One step of the loop, case by case *)

Lemma playGame_turn_unfold (s : State rules) :
  snd (playGame_turn env s)
  = let (err, s1) :=
      makeMove env (slot s)
        (snd (log (LogStartingMove (moveCount s + 1) (slot s)) s)) in
    match err with
    | Some e => snd (sleep 5 (snd (log (LogErrorMakingMove (slot s) e) s1)))
    | None =>
        let g :=
          mkGameState 0 (FEN (game s1)) (lastMove s1) (slot s)
            (now env (S (List.length (trace s1)))) (moveHistory s1)
            (Outcome_String (GetOutcome (game s1))) in
        let r :=
          Channel.trySend
            (skipn (drained env (sends s1)) (gameStateChannel s1)) g in
        mkState (db s1) (game s1) (moveHistory s1) (fst r) (lastMove s1)
          ((playerIndex s + 1) mod 2) (moveCount s + 1) (requests s1)
          (execs s1) (S (sends s1)) (rows s1)
          ((((trace s1 ++ [EvLog (LogCompletedMove (moveCount s + 1)
                                    (FEN (game s1)))])
               ++ [EvOffer g (snd r)])
              ++ [EvLog (if snd r then LogSentToChannel
                         else LogSkippedSending)])
             ++ [EvSleep 3])
    end.
Proof.
  unfold playGame_turn, slot, bind at 1 2 3 4. unfold get at 1 2.
  cbn -[makeMove Nat.modulo].
  destruct (makeMove env _ _) as [[e|] s1].
  - reflexivity.
  - unfold bind, get, set_playerIndex, set_moveCount, log, emit, time_Now,
      publish, sleep, emit.
    cbn -[Nat.modulo]. rewrite length_app. cbn -[Nat.modulo].
    rewrite Nat.add_1_r. reflexivity.
Qed.

Lemma playGame_over_unfold (s : State rules) :
  snd (playGame_over env s)
  = let (err, s1) :=
      saveGameState env (slot s) (lastMove s)
        (Outcome_String (GetOutcome (game s)))
        (snd (log (LogGameOver (GetOutcome (game s))) s)) in
    mkState (db s1) NewGame [] (gameStateChannel s1) "" 0 0 (requests s1)
      (execs s1) (sends s1) (rows s1)
      (match err with
       | Some e => trace s1 ++ [EvLog (LogErrorSavingFinal e)]
       | None => trace s1
       end ++ [EvLog LogStartingNewGame]).
Proof.
  unfold playGame_over, slot, bind at 1 2 3 4 5. unfold get at 1 2 3.
  cbn -[saveGameState].
  destruct (saveGameState env _ _ _ _) as [[e|] s1]; reflexivity.
Qed.

Lemma playGame_step_cases (s : State rules) :
  Step env s (playGame_step env s)
  /\ db (playGame_step env s) = db s
  /\ requests (playGame_step env s) <= requests s + 3.
Proof.
  unfold playGame_step. fold (in_progress s).
  destruct (in_progress s) eqn:Hprog.
  - rewrite playGame_turn_unfold.
    destruct (makeMove env _ _) as [r s1] eqn:Hmk.
    apply makeMove_cases in Hmk. destruct Hmk as (Hm & Hk & Hr).
    apply (Moved_from 3 (slot s) s) in Hm; [ | crunch .. ].
    destruct Hm as [s1 Hall Hg' Hs' He'
                   | k m s0 r s1 Hk' Hall Hans Hmv Hh1 Hl1 Ha1 Hs1 He1 Hd1 Hsv Hg1].
    + digest. split; [ | split; [ congruence | lia ] ].
      apply Step_exhausted; try assumption; crunch; try congruence.
    + assert (Hfirst : first_accepted env s k m) by (repeat split; assumption).
      destruct Hsv as [s1 Hdb -> | s1 Hdb Hex Hsil Hex' | s1 Hdb Hex Hrows Hoff Hsends Hex' Hch].
      * digest. split; [ | split; [ congruence | lia ] ].
        apply (Step_unsaved env s k m ErrDbNotInitialized);
          try assumption; crunch; try congruence.
        left. split; congruence.
      * digest. split; [ | split; [ congruence | lia ] ].
        apply (Step_unsaved env s k m ErrSaving);
          try assumption; crunch; try congruence.
        right. repeat split; congruence.
      * cbv zeta.
        destruct (Channel.trySend (skipn (drained env (sends s1)) _) _)
          as [q []]; clear Hch;
          (digest; split; [ | split; [ congruence | lia ] ]);
          apply (Step_completed env s k m (now env (List.length (trace s0)))
                   (now env (S (List.length (trace s1)))));
          try assumption; crunch; try congruence.
        all: try (rewrite Hrows; unfold row_of, saved_snapshot; cbn;
                  congruence).
        all: rewrite Hoff, <- app_assoc; unfold saved_snapshot; cbn;
          congruence.
  - rewrite playGame_over_unfold.
    pose proof (saveGameState_cases (slot s) (lastMove s)
                  (Outcome_String (GetOutcome (game s)))
                  (snd (log (LogGameOver (GetOutcome (game s))) s)))
      as (Hsv & Hk & Hg & Hr).
    destruct (saveGameState env _ _ _ _) as [r s1]. cbn [fst snd] in *.
    destruct Hsv as [s1 Hdb -> | s1 Hdb Hex Hsil Hex' | s1 Hdb Hex Hrows Hoff Hsends Hex' Hch].
    + digest. split; [ | split; [ congruence | lia ] ].
      apply Step_over; try assumption; crunch; try congruence.
      right. auto.
    + digest. split; [ | split; [ congruence | lia ] ].
      apply Step_over; try assumption; crunch; try congruence.
      right. auto.
    + digest. split; [ | split; [ congruence | lia ] ].
      apply Step_over; try assumption; crunch; try congruence.
      left. exists (now env (S (List.length (trace s)))).
      unfold row_of, saved_snapshot in *. cbn in *.
      rewrite length_app, Nat.add_1_r in *. auto.
Qed.

End Calls.


(** ** The move a turn acquires *)

Section Acquisition.

Context {rules : RulesEngine}.
Variable env : Env.

Lemma first_legal_None (g : Game) (player : string) (remaining : nat) :
  forall n,
    first_legal env g player n remaining = None ->
    forall k, k < remaining -> rejected g (answer env player (n + k)) = true.
Proof.
  induction remaining as [|r IH]; intros n Hnone k Hk; [ lia | ].
  cbn [first_legal] in Hnone.
  destruct (rejected g (answer env player n)) eqn:Hrej.
  - destruct k as [|k].
    + now rewrite Nat.add_0_r.
    + rewrite Nat.add_succ_r. apply (IH (S n) Hnone k). lia.
  - destruct (answer env player n); [ discriminate | ].
    cbn in Hrej. discriminate.
Qed.

Lemma first_legal_Some (g : Game) (player : string) (remaining : nat) :
  forall n m,
    first_legal env g player n remaining = Some m ->
    exists k,
      k < remaining
      /\ (forall j, j < k -> rejected g (answer env player (n + j)) = true)
      /\ answer env player (n + k) = inl m
      /\ MoveStr g m <> None.
Proof.
  induction remaining as [|r IH]; intros n m Hsome; [ discriminate | ].
  cbn [first_legal] in Hsome.
  destruct (rejected g (answer env player n)) eqn:Hrej.
  - destruct (IH (S n) m Hsome) as (k & Hk & Hall & Hans & Hok).
    exists (S k). repeat split.
    + lia.
    + intros [|j] Hj.
      * now rewrite Nat.add_0_r.
      * rewrite Nat.add_succ_r. apply Hall. lia.
    + now rewrite Nat.add_succ_r.
    + exact Hok.
  - destruct (answer env player n) as [m'|] eqn:Hans; [ | discriminate ].
    injection Hsome as ->. exists 0. repeat split.
    + lia.
    + intros j Hj. lia.
    + now rewrite Nat.add_0_r.
    + cbn in Hrej. destruct (MoveStr g m); [ discriminate | discriminate ].
Qed.

(** Two first accepted attempts of one turn are the same attempt. *)
Lemma first_accepted_unique (s : State rules) (k k' : nat) (m m' : string) :
  first_accepted env s k m -> MoveStr (game s) m <> None ->
  first_accepted env s k' m' -> MoveStr (game s) m' <> None ->
  m = m'.
Proof.
  intros (Hk & Hall & Hans) Hok (Hk' & Hall' & Hans') Hok'.
  destruct (Nat.lt_trichotomy k k') as [Hlt | [Heq | Hgt]].
  - specialize (Hall' k Hlt). rewrite Hans in Hall'. cbn in Hall'.
    destruct (MoveStr (game s) m); [ discriminate | contradiction ].
  - subst k'. congruence.
  - specialize (Hall k' Hgt). rewrite Hans' in Hall. cbn in Hall.
    destruct (MoveStr (game s) m'); [ discriminate | contradiction ].
Qed.

Lemma acquired_first_accepted (s : State rules) (m : string) :
  acquired env s = Some m ->
  (exists k, first_accepted env s k m) /\ MoveStr (game s) m <> None.
Proof.
  intros H. apply first_legal_Some in H.
  destruct H as (k & Hk & Hall & Hans & Hok).
  split; [ exists k; repeat split; assumption | exact Hok ].
Qed.

(** A step whose turn finds no legal move. *)
Lemma step_exhausted (s : State rules) :
  in_progress s = true -> acquired env s = None ->
  let s' := playGame_step env s in
  SameGame s s' /\ Silent s s'
  /\ playerIndex s' = playerIndex s /\ moveCount s' = moveCount s
  /\ turns (trace s') = turns (trace s) ++ [slot s]
  /\ failures (trace s') = failures (trace s) ++ [(slot s, ErrNoValidMove)]
  /\ sleeps (trace s') = sleeps (trace s) ++ [5].
Proof.
  intros Hprog Hnone s'.
  pose proof (first_legal_None _ _ _ _ Hnone) as Hall.
  destruct (playGame_step_cases env s) as (Hstep & _ & _). fold s' in Hstep.
  destruct Hstep as [s' _ _ Hg Hs Hi Hc Ht Hf Hsl
                    | k m e s' _ (Hk & _ & Hans) Hmv _ _ _ _ _ _ _ _ _ _
                    | k m t1 t2 s' _ (Hk & _ & Hans) Hmv _ _ _ _ _ _ _ _ _ _ _ _
                    | s' Hover _ _ _ _ _ _ _ _ _ _ _].
  - repeat (split; [ assumption | ]). assumption.
  - specialize (Hall k Hk). rewrite Hans in Hall. cbn in Hall.
    rewrite Hmv in Hall. discriminate.
  - specialize (Hall k Hk). rewrite Hans in Hall. cbn in Hall.
    rewrite Hmv in Hall. discriminate.
  - congruence.
Qed.

(** A step whose turn finds a legal move. *)
Lemma step_acquired (s : State rules) (m : string) :
  in_progress s = true -> acquired env s = Some m ->
  let s' := playGame_step env s in
  Played s m s'
  /\ match save_error env s with
     | None => Completed s m s'
     | Some e => Unsaved s e s'
     end.
Proof.
  intros Hprog Hsome s'.
  destruct (acquired_first_accepted s m Hsome) as ((k0 & Hfirst) & Hok).
  destruct (playGame_step_cases env s) as (Hstep & _ & _). fold s' in Hstep.
  unfold save_error.
  destruct Hstep as [s' _ Hall _ _ _ _ _ _ _
                    | k m' e s' _ Hfirst' Hmv Hh Hl Ha Hsil Herr Hi Hc Ht Hf Hsl
                    | k m' t1 t2 s' _ Hfirst' Hmv Hh Hl Ha Hdb Hex Hrows Hoff Hi Hc Ht Hf Hsl
                    | s' Hover _ _ _ _ _ _ _ _ _ _ _].
  - destruct Hfirst as (Hk & _ & Hans). specialize (Hall k0 Hk).
    rewrite Hans in Hall. cbn in Hall.
    destruct (MoveStr (game s) m); [ discriminate | contradiction ].
  - assert (m' = m) as ->.
    { symmetry. eapply first_accepted_unique; eauto. congruence. }
    split; [ split; assumption | ].
    destruct Herr as [(Hdb & ->) | (Hdb & Hex & ->)];
      rewrite Hdb; cbn; [ | rewrite Hex; cbn ]; split; assumption.
  - assert (m' = m) as ->.
    { symmetry. eapply first_accepted_unique; eauto. congruence. }
    split; [ split; assumption | ].
    rewrite Hdb, Hex. cbn. split; try assumption.
    exists t1, t2. exact Hoff.
  - congruence.
Qed.

(** The step that ends a game. *)
Lemma step_over (s : State rules) :
  in_progress s = false ->
  let s' := playGame_step env s in
  Restarted s s'
  /\ match save_error env s with
     | None =>
         exists t,
           rows s' = rows s ++ [row_of (final_snapshot s t)]
           /\ offers (trace s') = offers (trace s) ++ [final_snapshot s t]
     | Some _ => rows s' = rows s /\ offers (trace s') = offers (trace s)
     end.
Proof.
  intros Hover s'.
  destruct (playGame_step_cases env s) as (Hstep & _ & _). fold s' in Hstep.
  unfold save_error.
  destruct Hstep as [s' Hprog _ _ _ _ _ _ _ _
                    | k m' e s' Hprog _ _ _ _ _ _ _ _ _ _ _ _
                    | k m' t1 t2 s' Hprog _ _ _ _ _ _ _ _ _ _ _ _ _ _
                    | s' _ Hg Hh Hl Hi Hc Ha Ht Hf Hsl Hr Hsave];
    try congruence.
  split; [ split; assumption | ].
  destruct Hsave as [(t & Hdb & Hex & Hrows & Hoff) | (Hno & Hrows & Hoff)].
  - rewrite Hdb, Hex. cbn. exists t. split; assumption.
  - destruct Hno as [Hdb | Hex].
    + rewrite Hdb. cbn. split; assumption.
    + destruct (db s); cbn; [ rewrite Hex; cbn | ]; split; assumption.
Qed.

End Acquisition.


(** * The specification, claim by claim *)

Import FoolsMate.

Lemma terminal_Outcome_String (o : Outcome) :
  terminal (Outcome_String o) = negb (Outcome_eqb o NoOutcome).
Proof. destruct o; reflexivity. Qed.

Lemma Outcome_String_not_empty (o : Outcome) : Outcome_String o <> "".
Proof. destruct o; discriminate. Qed.

(** ** Move acquisition *)

(** C7, as stated.  The failure that [makeMove] returns is the same value
    for the one slot and for the other: it names no slot.  And a
    response of OpenAI without choices is not an error that is retried:
    [getOpenAIMove] panics on it. *)
Lemma C7_counterexample :
  fst (makeMove FoolsMate.stubborn "openai" start) = Some ErrNoValidMove
  /\ fst (makeMove FoolsMate.stubborn "anthropic" start) = Some ErrNoValidMove
  /\ fst (makeMove FoolsMate.stubborn "openai" start)
     = fst (makeMove FoolsMate.stubborn "anthropic" start)
  /\ getOpenAIMove_result (fun text => text) (Some []) = Panicked.
Proof. vm_compute. repeat split. Qed.

(** C7, amended.  A turn makes at most three request/validate rounds.
    When all three fail, each with an error that the provider call
    returns or with a move that the rules engine rejects, [makeMove]
    returns the one error "failed to get a valid move after 3 attempts",
    which names no slot; no move is applied, nothing is written or
    offered; the loop reports the failure once, in a line that names the
    slot of the turn, pauses for five seconds and goes on with the same
    game and the same slot. *)
Theorem C7_three_attempts_then_one_failure
    {rules : RulesEngine} (env : Env) (s : State rules) :
  in_progress s = true ->
  acquired env s = None ->
  let s' := playGame_step env s in
  (forall player s0, requests (snd (makeMove env player s0)) <= requests s0 + 3)
  /\ fst (makeMove env (slot s) s) = Some ErrNoValidMove
  /\ game s' = game s /\ moveHistory s' = moveHistory s
  /\ lastMove s' = lastMove s
  /\ applied_moves (trace s') = applied_moves (trace s)
  /\ rows s' = rows s /\ offers (trace s') = offers (trace s)
  /\ failures (trace s') = failures (trace s) ++ [(slot s, ErrNoValidMove)]
  /\ sleeps (trace s') = sleeps (trace s) ++ [5]
  /\ in_progress s' = true
  /\ slot s' = slot s.
Proof.
  intros Hprog Hnone s'.
  destruct (step_exhausted env s Hprog Hnone)
    as ([Hg Hh Hl Ha] & [Hr Ho _ _] & Hi & _ & _ & Hf & Hs).
  fold s' in Hg, Hh, Hl, Ha, Hr, Ho, Hi, Hf, Hs.
  split.
  { intros player s0.
    destruct (makeMove env player s0) as [r s1] eqn:Hmk.
    apply makeMove_cases in Hmk. apply Hmk. }
  split.
  { destruct (makeMove env (slot s) s) as [r s1] eqn:Hmk.
    apply makeMove_cases in Hmk. destruct Hmk as (Hm & _ & _).
    apply Moved_all_rejected in Hm; [ apply Hm | ].
    apply first_legal_None. exact Hnone. }
  repeat (split; [ assumption | ]).
  split.
  - unfold in_progress in *. now rewrite Hg.
  - unfold slot. now rewrite Hi.
Qed.

Lemma C7_witness :
  in_progress (rules := FoolsMate.engine) start = true
  /\ acquired FoolsMate.stubborn start = None
  /\ failures (trace (playGame_step FoolsMate.stubborn start))
     = [("openai", ErrNoValidMove)].
Proof.
  split; [ reflexivity | split; [ reflexivity | ] ].
  exact (proj1 (proj2 (proj2 (proj2 (proj2 (proj2 (proj2 (proj2 (proj2
    (C7_three_attempts_then_one_failure FoolsMate.stubborn start
       eq_refl eq_refl)))))))))).
Defined.

(** ** Persistence failure *)

(** C1.  The providers play 1. f3 and the first INSERT fails: the move is
    applied and recorded in the history, but the turn is not counted, the
    slot does not change and no snapshot is offered to the channel. *)
Theorem C1_failed_write_holds_the_turn :
  let s := playGame_step FoolsMate.first_write_fails start in
  applied_moves (trace s) = ["f3"]
  /\ moveHistory s = ["f3"]
  /\ FEN (game s) = "rnbqkbnr/pppppppp/8/8/8/5P2/PPPPP1PP/RNBQKBNR b KQkq - 0 1"
  /\ failures (trace s) = [("openai", ErrSaving)]
  /\ playerIndex s = 0 /\ moveCount s = 0
  /\ offers (trace s) = [] /\ rows s = [].
Proof. vm_compute. repeat split. Qed.

(** C6.  In the same run the first turn finds its move at the first
    attempt, and the second turn is again a turn of openai, after the
    pause of five seconds: openai is asked for a move in the position
    after 1. f3, where black is to move. *)
Theorem C6_same_slot_after_failed_write :
  let s1 := playGame_step FoolsMate.first_write_fails start in
  let s2 := playGame_step FoolsMate.first_write_fails s1 in
  acquired FoolsMate.first_write_fails start = Some "f3"
  /\ applied_moves (trace s1) = ["f3"]
  /\ failures (trace s1) = [("openai", ErrSaving)]
  /\ sleeps (trace s1) = [5]
  /\ turns (trace s2) = ["openai"; "openai"]
  /\ In (EvRequest "openai"
           "rnbqkbnr/pppppppp/8/8/8/5P2/PPPPP1PP/RNBQKBNR b KQkq - 0 1"
           false "")
        (trace s2).
Proof.
  vm_compute. repeat split.
  repeat (first [ left; reflexivity | right ]).
Qed.

(** ** The snapshots of a game *)

(** C4.  The fool's mate, every write succeeding: black's Qh4# is played
    by anthropic, and the final snapshot, both as offered to the channel
    and as written to the table, names openai as the last player. *)
Theorem C4_final_snapshot_names_the_other_slot :
  let s := playGame FoolsMate.quiet 5 start in
  In (EvLog (LogAppliedMove "Qh4#" "anthropic")) (trace s)
  /\ applied_moves (trace (playGame FoolsMate.quiet 4 start))
     = ["f3"; "e5"; "g4"; "Qh4#"]
  /\ nth_error (offers (trace s)) 8
     = Some (mkGameState 0
               "rnb1kbnr/pppp1ppp/8/4p3/6Pq/5P2/PPPPP2P/RNBQKBNR w KQkq - 1 3"
               "Qh4#" "openai" 0 ["f3"; "e5"; "g4"; "Qh4#"] "0-1")
  /\ List.length (offers (trace s)) = 9
  /\ nth_error (rows s) 4
     = Some (mkRow
               "rnb1kbnr/pppp1ppp/8/4p3/6Pq/5P2/PPPPP2P/RNBQKBNR w KQkq - 1 3"
               "Qh4#" "openai" "f3,e5,g4,Qh4#" "0-1")
  /\ List.length (rows s) = 5.
Proof.
  vm_compute. repeat split.
  repeat (first [ left; reflexivity | right ]).
Qed.

(** C10, as stated.  At the run of C1 a move is applied and no snapshot
    is offered for it.  And when the two snapshots of a turn are offered
    while two handlers are connected, each handler receives one of them,
    not two. *)
Lemma C10_counterexample :
  let s := playGame_step FoolsMate.first_write_fails start in
  let turn := offers (trace (playGame_step FoolsMate.quiet start)) in
  let h := Channel.run Channel.empty
             ([Channel.Connect 0; Channel.Connect 1]
                ++ map Channel.Publish turn
                ++ [Channel.Receive 0 true; Channel.Receive 1 true]) in
  applied_moves (trace s) = ["f3"]
  /\ offers (trace s) = []
  /\ List.length (offers (trace s)) <> 2
  /\ map gs_GameOutcome turn = [EmptyString; "*"]
  /\ map gs_GameOutcome (Channel.frames h 0) = [EmptyString]
  /\ map gs_GameOutcome (Channel.frames h 1) = ["*"].
Proof. vm_compute. repeat split. discriminate. Qed.

(** A handler that is the only reader of an empty channel receives two
    snapshots that are published one after the other, in their order. *)
Lemma sole_reader_receives_both (h : Channel.Hub (A := GameState))
    (i : nat) (g1 g2 : GameState) :
  Channel.backlog h = [] ->
  Channel.running h i = true ->
  Channel.frames
    (Channel.run h [Channel.Publish g1; Channel.Publish g2;
                    Channel.Receive i true; Channel.Receive i true]) i
  = Channel.frames h i ++ [g1; g2].
Proof.
  destruct h as [q f r]. cbn [Channel.backlog Channel.running].
  intros -> Hr. cbn. rewrite Hr. cbn. rewrite Hr. cbn.
  unfold Channel.upd. rewrite Nat.eqb_refl. now rewrite <- app_assoc.
Qed.

(** C10, amended.  A move that is applied and whose row is written makes
    the turn offer two snapshots, one after the other: the one of
    [saveGameState], whose outcome is the empty string, and the one of the
    loop, whose outcome is the string of the rules engine's outcome, "*"
    as long as the game goes on.  They agree on the move, the slot and
    the history and are different snapshots.  A handler that is the only
    reader of the channel and finds it empty receives these two, in this
    order. *)
Theorem C10_two_snapshots_per_completed_turn
    {rules : RulesEngine} (env : Env) (s : State rules) (m : string) :
  in_progress s = true ->
  acquired env s = Some m ->
  db s = true ->
  execOk env (execs s) = true ->
  let s' := playGame_step env s in
  exists t1 t2,
    offers (trace s')
    = offers (trace s) ++ [save_snapshot s s' m t1; loop_snapshot s s' m t2]
    /\ gs_GameOutcome (save_snapshot s s' m t1) = ""
    /\ gs_GameOutcome (loop_snapshot s s' m t2)
       = Outcome_String (GetOutcome (game s'))
    /\ (if in_progress s'
        then gs_GameOutcome (loop_snapshot s s' m t2) = "*"
        else terminal (gs_GameOutcome (loop_snapshot s s' m t2)) = true)
    /\ save_snapshot s s' m t1 <> loop_snapshot s s' m t2
    /\ MoveStr (game s) m = Some (game s')
    /\ (forall (h : Channel.Hub) (i : nat),
          Channel.backlog h = [] ->
          Channel.running h i = true ->
          Channel.frames
            (Channel.run h
               [Channel.Publish (save_snapshot s s' m t1);
                Channel.Publish (loop_snapshot s s' m t2);
                Channel.Receive i true; Channel.Receive i true]) i
          = Channel.frames h i
            ++ [save_snapshot s s' m t1; loop_snapshot s s' m t2]).
Proof.
  intros Hprog Hsome Hdb Hex s'.
  destruct (step_acquired env s m Hprog Hsome) as (Hplayed & Hsaved).
  fold s' in Hplayed, Hsaved.
  unfold save_error in Hsaved. rewrite Hdb, Hex in Hsaved. cbn in Hsaved.
  destruct Hsaved as [_ (t1 & t2 & Hoff) _ _ _ _].
  destruct Hplayed as [Hmv _ _ _ _].
  exists t1, t2. repeat split.
  - exact Hoff.
  - cbn. unfold in_progress.
    destruct (GetOutcome (game s')); reflexivity.
  - intros Heq. apply (f_equal gs_GameOutcome) in Heq. cbn in Heq.
    symmetry in Heq. now apply Outcome_String_not_empty in Heq.
  - exact Hmv.
  - intros h i. apply sole_reader_receives_both.
Qed.

Lemma C10_witness :
  in_progress (rules := FoolsMate.engine) start = true
  /\ acquired FoolsMate.quiet start = Some "f3"
  /\ map gs_GameOutcome (offers (trace (playGame_step FoolsMate.quiet start)))
     = [""; "*"].
Proof.
  split; [ reflexivity | split; [ reflexivity | ] ].
  destruct (C10_two_snapshots_per_completed_turn (rules := FoolsMate.engine)
              FoolsMate.quiet start "f3" eq_refl eq_refl eq_refl eq_refl)
    as (t1 & t2 & Hoff & _).
  rewrite Hoff. reflexivity.
Defined.

(** ** Runs of the loop *)

Section Runs.

Context {rules : RulesEngine}.
Variable env : Env.

Lemma playGame_S (n : nat) :
  forall s : State rules,
    playGame env (S n) s = playGame_step env (playGame env n s).
Proof.
  induction n as [|n IH]; intros s; [ reflexivity | ].
  change (playGame env (S (S n)) s)
    with (playGame env (S n) (playGame_step env s)).
  rewrite IH. reflexivity.
Qed.

Lemma db_playGame (n : nat) (s : State rules) : db (playGame env n s) = db s.
Proof.
  induction n as [|n IH]; [ reflexivity | ].
  rewrite playGame_S.
  destruct (playGame_step_cases env (playGame env n s)) as (_ & Hdb & _).
  congruence.
Qed.

(** The case analysis of a step on what the turn acquires. *)
Lemma step_by_cases (s : State rules) (P : Prop) :
  (in_progress s = false -> P) ->
  (in_progress s = true -> acquired env s = None -> P) ->
  (forall m, in_progress s = true -> acquired env s = Some m -> P) ->
  P.
Proof.
  intros Hover Hnone Hsome.
  destruct (in_progress s) eqn:Hprog; [ | auto ].
  destruct (acquired env s) as [m|] eqn:Hacq; eauto.
Qed.

Lemma playerIndex_step (s : State rules) :
  playerIndex s < 2 -> playerIndex (playGame_step env s) < 2.
Proof.
  intros Hi.
  destruct (playGame_step_cases env s) as (Hstep & _ & _).
  destruct Hstep as [s' _ _ _ _ Hi' _ _ _ _
                    | k m e s' _ _ _ _ _ _ _ _ Hi' _ _ _ _
                    | k m t1 t2 s' _ _ _ _ _ _ _ _ _ _ Hi' _ _ _ _
                    | s' _ _ _ _ Hi' _ _ _ _ _ _ _];
    rewrite Hi'; try lia.
  apply Nat.mod_upper_bound. lia.
Qed.

(** [players[playerIndex]] is always within the slice. *)
Lemma playerIndex_in_range (n : nat) : playerIndex (playGame env n start) < 2.
Proof.
  induction n as [|n IH]; [ cbn; lia | ].
  rewrite playGame_S. now apply playerIndex_step.
Qed.

(** The history and the last move after a step, from those before it. *)
Lemma history_step (s : State rules) :
  moveHistory s = applied_moves (trace s) ->
  lastMove s = last (moveHistory s) "" ->
  let s' := playGame_step env s in
  moveHistory s' = applied_moves (trace s')
  /\ lastMove s' = last (moveHistory s') "".
Proof.
  intros Hh Hl. cbv zeta. apply (step_by_cases s).
  - intros Hover. destruct (step_over env s Hover) as ([] & _).
    split; [ congruence | ].
    rewrite restarted_history0. cbn. assumption.
  - intros Hprog Hnone.
    destruct (step_exhausted env s Hprog Hnone) as ([] & _).
    split; congruence.
  - intros m Hprog Hsome.
    destruct (step_acquired env s m Hprog Hsome) as ([] & _).
    split; [ congruence | ].
    rewrite played_history0, last_last. assumption.
Qed.

Lemma history_playGame (n : nat) :
  let s := playGame env n start in
  moveHistory s = applied_moves (trace s)
  /\ lastMove s = last (moveHistory s) "".
Proof.
  induction n as [|n IH].
  - split; reflexivity.
  - cbv zeta. rewrite playGame_S. destruct IH as (Hh & Hl).
    now apply history_step.
Qed.

(** A step adds snapshots to those offered before and takes none away. *)
Lemma offers_step (s : State rules) :
  exists l, offers (trace (playGame_step env s)) = offers (trace s) ++ l.
Proof.
  apply (step_by_cases s).
  - intros Hover. destruct (step_over env s Hover) as (_ & Hsave).
    destruct (save_error env s).
    + exists []. rewrite app_nil_r. apply Hsave.
    + destruct Hsave as (t & _ & Hoff). eexists. exact Hoff.
  - intros Hprog Hnone.
    destruct (step_exhausted env s Hprog Hnone) as (_ & [] & _).
    exists []. now rewrite app_nil_r.
  - intros m Hprog Hsome.
    destruct (step_acquired env s m Hprog Hsome) as (_ & Hsave).
    destruct (save_error env s).
    + destruct Hsave as [[] _ _ _ _]. exists []. now rewrite app_nil_r.
    + destruct Hsave as [_ (t1 & t2 & Hoff) _ _ _ _]. eexists. exact Hoff.
Qed.

Lemma offers_playGame (n : nat) :
  forall s : State rules,
    exists l, offers (trace (playGame env n s)) = offers (trace s) ++ l.
Proof.
  induction n as [|n IH]; intros s.
  - exists []. now rewrite app_nil_r.
  - cbn [playGame]. destruct (IH (playGame_step env s)) as (l & Hl).
    destruct (offers_step s) as (l0 & Hl0).
    exists (l0 ++ l). now rewrite Hl, Hl0, app_assoc.
Qed.

End Runs.

(** ** The move history *)


(** ** Snapshots with a terminal outcome *)

Section Terminal.

Context {rules : RulesEngine}.
Variable env : Env.

Lemma terminal_offers_app (t : list Event) (l : list GameState) :
  forall t', offers t' = offers t ++ l ->
  terminal_offers t'
  = terminal_offers t ++ filter (fun g => terminal (gs_GameOutcome g)) l.
Proof.
  intros t' H. unfold terminal_offers. now rewrite H, filter_app.
Qed.

Lemma in_progress_terminal (s : State rules) :
  terminal (Outcome_String (GetOutcome (game s))) = negb (in_progress s).
Proof. apply terminal_Outcome_String. Qed.

(** A turn after which the game goes on offers no terminal snapshot. *)
Lemma terminal_step_going_on (s : State rules) :
  in_progress s = true ->
  in_progress (playGame_step env s) = true ->
  terminal_offers (trace (playGame_step env s)) = terminal_offers (trace s).
Proof.
  intros Hprog Hnext.
  destruct (offers_step env s) as (l0 & Hl0).
  apply (step_by_cases env s); [ congruence | | ].
  - intros _ Hnone.
    destruct (step_exhausted env s Hprog Hnone) as (_ & [] & _).
    unfold terminal_offers. congruence.
  - intros m _ Hsome.
    destruct (step_acquired env s m Hprog Hsome) as (_ & Hsave).
    destruct (save_error env s).
    + destruct Hsave as [[] _ _ _ _]. unfold terminal_offers. congruence.
    + destruct Hsave as [_ (t1 & t2 & Hoff) _ _ _ _].
      rewrite (terminal_offers_app _ _ _ Hoff). cbn.
      rewrite in_progress_terminal, Hnext. cbn. now rewrite app_nil_r.
Qed.

(** The turn of the last move of a game offers at most one terminal
    snapshot, the one of the loop. *)
Lemma terminal_step_last_move (s : State rules) :
  in_progress s = true ->
  in_progress (playGame_step env s) = false ->
  exists l,
    terminal_offers (trace (playGame_step env s)) = terminal_offers (trace s) ++ l
    /\ List.length l <= 1
    /\ (save_error env s = None ->
        exists m t, l = [loop_snapshot s (playGame_step env s) m t]).
Proof.
  intros Hprog Hnext.
  apply (step_by_cases env s); [ congruence | | ].
  - intros _ Hnone.
    destruct (step_exhausted env s Hprog Hnone) as ([Hg _ _ _] & _).
    unfold in_progress in *. rewrite Hg in Hnext. congruence.
  - intros m _ Hsome.
    destruct (step_acquired env s m Hprog Hsome) as (_ & Hsave).
    destruct (save_error env s).
    + destruct Hsave as [[] _ _ _ _]. exists []. repeat split.
      * unfold terminal_offers. rewrite app_nil_r. congruence.
      * cbn. lia.
      * discriminate.
    + destruct Hsave as [_ (t1 & t2 & Hoff) _ _ _ _].
      exists [loop_snapshot s (playGame_step env s) m t2]. repeat split.
      * rewrite (terminal_offers_app _ _ _ Hoff). cbn.
        now rewrite in_progress_terminal, Hnext.
      * cbn. lia.
      * intros _. now exists m, t2.
Qed.

(** The step that ends the game offers at most one more, the final one. *)
Lemma terminal_step_over (s : State rules) :
  in_progress s = false ->
  exists l,
    terminal_offers (trace (playGame_step env s)) = terminal_offers (trace s) ++ l
    /\ List.length l <= 1
    /\ (save_error env s = None -> exists t, l = [final_snapshot s t]).
Proof.
  intros Hover.
  destruct (step_over env s Hover) as (_ & Hsave).
  destruct (save_error env s).
  - destruct Hsave as (_ & Hoff). exists []. repeat split.
    + unfold terminal_offers. rewrite app_nil_r. congruence.
    + cbn. lia.
    + discriminate.
  - destruct Hsave as (t & _ & Hoff).
    exists [final_snapshot s t]. repeat split.
    + rewrite (terminal_offers_app _ _ _ Hoff). cbn.
      now rewrite in_progress_terminal, Hover.
    + cbn. lia.
    + intros _. now exists t.
Qed.

Lemma terminal_playGame_going_on (n : nat) (s : State rules) :
  (forall k, k <= n -> in_progress (playGame env k s) = true) ->
  terminal_offers (trace (playGame env n s)) = terminal_offers (trace s).
Proof.
  induction n as [|n IH]; intros Hall; [ reflexivity | ].
  rewrite playGame_S, terminal_step_going_on.
  - apply IH. intros k Hk. apply Hall. lia.
  - apply Hall. lia.
  - rewrite <- playGame_S. apply Hall. lia.
Qed.

Lemma save_error_None (s : State rules) :
  db s = true -> (forall i, execOk env i = true) -> save_error env s = None.
Proof. intros Hdb Hex. unfold save_error. now rewrite Hdb, Hex. Qed.

End Terminal.

(** C5, as stated: in the fool's mate, every write succeeding, the one
    finished game has two offered snapshots with the outcome "0-1". *)
Lemma C5_counterexample :
  let s := playGame FoolsMate.quiet 5 start in
  map gs_GameOutcome (offers (trace s))
  = [""; "*"; ""; "*"; ""; "*"; ""; "0-1"; "0-1"]
  /\ List.length (terminal_offers (trace s)) = 2
  /\ List.length (terminal_offers (trace s)) <> 1
  /\ applied_moves (trace s) = [].
Proof. vm_compute. repeat split. discriminate. Qed.

(** C5, amended.  Take a game that goes on for [n] steps and ends with
    the move of the next turn.  No snapshot offered in the first [n]
    steps has a terminal outcome.  The last turn and the end of the game
    offer at most two snapshots with a terminal outcome; when the writes
    succeed they are exactly two: the loop's snapshot of the last move
    and the final snapshot of [saveGameState]. *)
Theorem C5_terminal_snapshots_of_a_game
    {rules : RulesEngine} (env : Env) (s : State rules) (n : nat) :
  (forall k, k <= n -> in_progress (playGame env k s) = true) ->
  in_progress (playGame env (S n) s) = false ->
  let last_turn := playGame env n s in
  let over := playGame env (S n) s in
  terminal_offers (trace last_turn) = terminal_offers (trace s)
  /\ exists l,
       terminal_offers (trace (playGame env (S (S n)) s))
       = terminal_offers (trace s) ++ l
       /\ List.length l <= 2
       /\ (db s = true -> (forall i, execOk env i = true) ->
           exists m t1 t2,
             l = [loop_snapshot last_turn over m t1; final_snapshot over t2]).
Proof.
  intros Hall Hend last_turn over.
  assert (Hquiet : terminal_offers (trace last_turn) = terminal_offers (trace s))
    by now apply terminal_playGame_going_on.
  split; [ exact Hquiet | ].
  assert (Hprog : in_progress last_turn = true) by (apply Hall; lia).
  assert (Hover : over = playGame_step env last_turn) by apply playGame_S.
  destruct (terminal_step_last_move env last_turn Hprog) as (l1 & Hl1 & Hn1 & Hw1).
  { now rewrite <- Hover. }
  destruct (terminal_step_over env over Hend) as (l2 & Hl2 & Hn2 & Hw2).
  exists (l1 ++ l2). repeat split.
  - rewrite playGame_S. fold over. rewrite Hl2, Hover, Hl1, Hquiet.
    now rewrite app_assoc.
  - rewrite length_app. lia.
  - intros Hdb Hex.
    destruct Hw1 as (m & t1 & ->).
    { apply save_error_None; [ | exact Hex ].
      unfold last_turn. now rewrite db_playGame. }
    destruct Hw2 as (t2 & ->).
    { apply save_error_None; [ | exact Hex ].
      unfold over. now rewrite db_playGame. }
    exists m, t1, t2. now rewrite Hover.
Qed.

Lemma C5_witness :
  (forall k, k <= 3 ->
     in_progress (playGame FoolsMate.quiet k (start (rules := FoolsMate.engine)))
     = true)
  /\ in_progress (playGame FoolsMate.quiet 4 (start (rules := FoolsMate.engine)))
     = false
  /\ terminal_offers
       (trace (playGame FoolsMate.quiet 3 (start (rules := FoolsMate.engine))))
     = [].
Proof.
  assert (H : forall k, k <= 3 ->
            in_progress
              (playGame FoolsMate.quiet k (start (rules := FoolsMate.engine)))
            = true).
  { intros k Hk. do 4 (destruct k as [|k]; [ reflexivity | ]). lia. }
  split; [ exact H | split; [ reflexivity | ] ].
  exact (proj1 (C5_terminal_snapshots_of_a_game (rules := FoolsMate.engine)
                  FoolsMate.quiet start 3 H eq_refl)).
Defined.

(** ** The start of the next game *)

Section NextGame.

Context {rules : RulesEngine}.
Variable env : Env.

Hypothesis NewGame_in_progress : GetOutcome NewGame = NoOutcome.
Hypothesis writes_succeed : forall i, execOk env i = true.

(** From the start of a game on, the first snapshot offered is the one
    [saveGameState] builds for the first move that is applied. *)
Lemma first_offer_of_a_game (n : nat) :
  forall x : State rules,
    db x = true -> game x = NewGame -> moveHistory x = [] ->
    playerIndex x = 0 ->
    offers (trace (playGame env n x)) = offers (trace x)
    \/ exists m g' t rest,
         MoveStr NewGame m = Some g'
         /\ offers (trace (playGame env n x))
            = offers (trace x)
              ++ mkGameState 0 (FEN g') m "openai" t [m] "" :: rest.
Proof.
  induction n as [|n IH]; intros x Hdb Hgame Hhist Hidx; [ now left | ].
  cbn [playGame].
  assert (Hprog : in_progress x = true).
  { unfold in_progress. now rewrite Hgame, NewGame_in_progress. }
  apply (step_by_cases env x); [ congruence | | ].
  - intros _ Hnone.
    destruct (step_exhausted env x Hprog Hnone)
      as ([Hg Hh _ _] & [_ Ho _ _] & Hi & _).
    destruct (playGame_step_cases env x) as (_ & Hdb' & _).
    rewrite <- Ho. apply IH; congruence.
  - intros m _ Hsome.
    destruct (step_acquired env x m Hprog Hsome) as ([Hmv _ _ _ _] & Hsave).
    rewrite (save_error_None env x Hdb writes_succeed) in Hsave.
    destruct Hsave as [_ (t1 & t2 & Hoff) _ _ _ _].
    destruct (offers_playGame env n (playGame_step env x)) as (l & Hl).
    right.
    exists m, (game (playGame_step env x)), t1,
      (loop_snapshot x (playGame_step env x) m t2 :: l).
    split; [ congruence | ].
    rewrite Hl, Hoff, <- app_assoc. unfold save_snapshot, slot.
    rewrite Hhist, Hidx. reflexivity.
Qed.

End NextGame.

(** C3, as stated: in the fool's mate played twice, the snapshot after
    the first one with the outcome "0-1" has the same outcome and the
    four moves of the finished game, and the one after that has the
    history f3 and the empty string as its outcome. *)
Lemma C3_counterexample :
  let s := playGame FoolsMate.quiet 6 start in
  map (fun g => (gs_MoveHistory g, gs_GameOutcome g))
    (skipn 7 (offers (trace s)))
  = [(["f3"; "e5"; "g4"; "Qh4#"], "0-1");
     (["f3"; "e5"; "g4"; "Qh4#"], "0-1");
     (["f3"], "");
     (["f3"], "*")]
  /\ map (fun g => List.length (gs_MoveHistory g))
       (skipn 8 (offers (trace s)))
     = [4; 1; 1].
Proof. vm_compute. split; reflexivity. Qed.

(** C3, amended.  When the game is over, the step offers at most one
    more snapshot, the final one of the finished game, and offers it
    exactly when its row is written; then it starts the new game without
    building a snapshot: the history is empty, [lastMove] is empty, the
    game is in progress and openai is to move.  When every write
    succeeds, the next snapshot that is offered is the one
    [saveGameState] builds after the first move [m] applied in the new
    game: its history is [[m]], its outcome is the empty string and its
    last player is openai. *)
Theorem C3_next_snapshot_after_a_finished_game
    {rules : RulesEngine} (env : Env) (s : State rules) :
  GetOutcome NewGame = NoOutcome ->
  in_progress s = false ->
  let s1 := playGame_step env s in
  match save_error env s with
  | None =>
      exists t, offers (trace s1) = offers (trace s) ++ [final_snapshot s t]
  | Some _ => offers (trace s1) = offers (trace s)
  end
  /\ game s1 = NewGame /\ moveHistory s1 = [] /\ lastMove s1 = ""
  /\ applied_moves (trace s1) = []
  /\ in_progress s1 = true /\ slot s1 = "openai"
  /\ (db s = true ->
      (forall i, execOk env i = true) ->
      (exists t, offers (trace s1) = offers (trace s) ++ [final_snapshot s t])
      /\ forall n,
           offers (trace (playGame env n s1)) = offers (trace s1)
           \/ exists m g' t rest,
                MoveStr NewGame m = Some g'
                /\ offers (trace (playGame env n s1))
                   = offers (trace s1)
                     ++ mkGameState 0 (FEN g') m "openai" t [m] "" :: rest).
Proof.
  intros Hnew Hover s1.
  destruct (step_over env s Hover) as ([Hg Hh Hl Hi _ Ha _ _ _ _] & Hsave).
  fold s1 in Hg, Hh, Hl, Hi, Ha, Hsave.
  split.
  { destruct (save_error env s).
    - apply Hsave.
    - destruct Hsave as (t & _ & Hoff). now exists t. }
  repeat (split; [ assumption | ]).
  split; [ unfold in_progress; now rewrite Hg, Hnew | ].
  split; [ unfold slot; now rewrite Hi | ].
  intros Hdb Hex.
  rewrite (save_error_None env s Hdb Hex) in Hsave.
  destruct Hsave as (t & _ & Hoff).
  split; [ now exists t | ].
  intros n. apply first_offer_of_a_game; try assumption.
  destruct (playGame_step_cases env s) as (_ & Hdb' & _).
  fold s1 in Hdb'. congruence.
Qed.

Lemma C3_witness :
  GetOutcome (NewGame (RulesEngine := FoolsMate.engine)) = NoOutcome
  /\ in_progress (playGame FoolsMate.quiet 4 (start (rules := FoolsMate.engine)))
     = false
  /\ moveHistory
       (playGame_step FoolsMate.quiet
          (playGame FoolsMate.quiet 4 (start (rules := FoolsMate.engine))))
     = [].
Proof.
  split; [ reflexivity | split; [ reflexivity | ] ].
  exact (proj1 (proj2 (proj2
    (C3_next_snapshot_after_a_finished_game (rules := FoolsMate.engine)
       FoolsMate.quiet (playGame FoolsMate.quiet 4 start)
       eq_refl eq_refl)))).
Defined.

(** ** The channel *)

Section ChannelFacts.

Context {A : Type}.

Lemma trySend_bounded (q : list A) (a : A) :
  List.length q <= Channel.capacity ->
  List.length (fst (Channel.trySend q a)) <= Channel.capacity.
Proof.
  intros Hq. unfold Channel.trySend.
  destruct (List.length q <? Channel.capacity) eqn:Hlt; cbn [fst].
  - apply Nat.ltb_lt in Hlt. rewrite length_app. cbn. lia.
  - exact Hq.
Qed.

Lemma delivered_to_cons (i : nat) (t : nat * A * bool)
    (ts : list (nat * A * bool)) :
  Channel.delivered_to i (t :: ts)
  = (if Nat.eqb (fst (fst t)) i && snd t then [Channel.item t] else [])
    ++ Channel.delivered_to i ts.
Proof.
  unfold Channel.delivered_to. cbn [filter].
  destruct (Nat.eqb (fst (fst t)) i && snd t); reflexivity.
Qed.

(** Where the snapshots that the channel accepted are: taken off by one
    receive each, or still waiting. *)
Lemma hub_accounting (xs : list (Channel.Action (A := A))) :
  forall h : Channel.Hub,
    Channel.backlog h ++ Channel.sent h xs
    = map Channel.item (Channel.taken h xs)
      ++ Channel.backlog (Channel.run h xs).
Proof.
  induction xs as [|x xs IH]; intros h.
  - cbn. now rewrite app_nil_r.
  - cbn [Channel.sent Channel.taken Channel.run fold_left].
    fold (Channel.run (Channel.act h x) xs).
    rewrite map_app, <- app_assoc, <- IH, !app_assoc. f_equal.
    destruct h as [q f r].
    destruct x as [a | i | i ok | i]; cbn.
    + unfold Channel.trySend.
      destruct (List.length q <? Channel.capacity);
        cbn; now rewrite ?app_nil_r.
    + now rewrite app_nil_r.
    + destruct (r i); cbn; [ | now rewrite app_nil_r ].
      destruct q as [|a q]; cbn; [ reflexivity | ].
      destruct ok; cbn; now rewrite app_nil_r.
    + now rewrite app_nil_r.
Qed.

(** What a handler has written to its client: the receives it made whose
    write succeeded. *)
Lemma hub_frames (xs : list (Channel.Action (A := A))) :
  forall (h : Channel.Hub) (i : nat),
    Channel.frames (Channel.run h xs) i
    = Channel.frames h i ++ Channel.delivered_to i (Channel.taken h xs).
Proof.
  induction xs as [|x xs IH]; intros h i.
  - cbn. now rewrite app_nil_r.
  - cbn [Channel.taken Channel.run fold_left].
    fold (Channel.run (Channel.act h x) xs).
    rewrite IH.
    destruct h as [q f r].
    destruct x as [a | j | j ok | j]; cbn -[Channel.delivered_to];
      try reflexivity.
    destruct (r j); cbn -[Channel.delivered_to]; [ | reflexivity ].
    destruct q as [|a q]; cbn -[Channel.delivered_to]; [ reflexivity | ].
    rewrite delivered_to_cons. cbn -[Channel.delivered_to].
    destruct ok; cbn -[Channel.delivered_to]; unfold Channel.upd.
    + rewrite (Nat.eqb_sym j i), andb_true_r.
      destruct (Nat.eqb i j) eqn:Hij; cbn.
      * apply Nat.eqb_eq in Hij. subst j. now rewrite <- app_assoc.
      * reflexivity.
    + now rewrite andb_false_r.
Qed.

(** Two handlers share the receives between them. *)
Lemma delivered_to_disjoint (i j : nat) (ts : list (nat * A * bool)) :
  Nat.eqb i j = false ->
  List.length (Channel.delivered_to i ts)
  + List.length (Channel.delivered_to j ts)
  <= List.length ts.
Proof.
  intros Hij. induction ts as [|[[k a] ok] ts IH]; [ cbn; lia | ].
  rewrite !delivered_to_cons, !length_app. cbn [fst snd List.length].
  destruct (Nat.eqb k i) eqn:Hki; destruct (Nat.eqb k j) eqn:Hkj;
    destruct ok; cbn; try lia.
  apply Nat.eqb_eq in Hki, Hkj. subst. rewrite Nat.eqb_refl in Hij.
  discriminate.
Qed.

End ChannelFacts.

(** C2, as stated: two handlers are connected, a snapshot is published,
    handler 0 receives it.  Handler 1 is still connected, has received
    nothing, and there is nothing left in the channel for it. *)
Lemma C2_counterexample :
  let h := Channel.run Channel.empty
             [Channel.Connect 0; Channel.Connect 1; Channel.Publish opening;
              Channel.Receive 0 true; Channel.Receive 1 true] in
  Channel.running h 0 = true /\ Channel.running h 1 = true
  /\ Channel.frames h 0 = [opening]
  /\ Channel.frames h 1 = []
  /\ Channel.frames h 0 <> Channel.frames h 1
  /\ Channel.backlog h = [].
Proof. vm_compute. repeat split. discriminate. Qed.

(** C2, amended.  Whatever the loop and the handlers do, in whatever
    order: the snapshots the channel accepted are, in their order, those
    that were received, each by one handler, and then those that still
    wait; a handler has written to its client the snapshots it received
    itself while its writes succeeded, and two different handlers share
    the received snapshots between them: no snapshot reaches both. *)
Theorem C2_each_snapshot_goes_to_one_observer
    (h : Channel.Hub (A := GameState))
    (xs : list (Channel.Action (A := GameState))) (i j : nat) :
  let ts := Channel.taken h xs in
  Channel.backlog h ++ Channel.sent h xs
  = map Channel.item ts ++ Channel.backlog (Channel.run h xs)
  /\ Channel.frames (Channel.run h xs) i
     = Channel.frames h i ++ Channel.delivered_to i ts
  /\ Channel.frames (Channel.run h xs) j
     = Channel.frames h j ++ Channel.delivered_to j ts
  /\ (if Nat.eqb i j then True
      else List.length (Channel.delivered_to i ts)
           + List.length (Channel.delivered_to j ts)
           <= List.length ts).
Proof.
  intros ts. split; [ apply hub_accounting | ].
  split; [ apply hub_frames | ].
  split; [ apply hub_frames | ].
  destruct (Nat.eqb i j) eqn:Hij; [ exact I | ].
  now apply delivered_to_disjoint.
Qed.

(** ** The loop and the channel *)

Section Backlog.

Context {rules : RulesEngine}.
Variable env : Env.

Lemma drained_bounded (d : nat) (q : list GameState) :
  List.length q <= Channel.capacity ->
  List.length (skipn d q) <= Channel.capacity.
Proof. intros Hq. rewrite length_skipn. lia. Qed.

Lemma Saved_bounded (player move outcome : string) (s : State rules)
    (r : option error) (s' : State rules) :
  Saved env player move outcome s r s' -> Bounded s -> Bounded s'.
Proof.
  unfold Bounded.
  intros [s1 _ -> | s1 _ _ [_ _ Hch _] _ | s1 _ _ _ _ _ _ Hch] Hb.
  - exact Hb.
  - now rewrite Hch.
  - rewrite Hch. now apply trySend_bounded, drained_bounded.
Qed.

Lemma Moved_bounded (n : nat) (player : string) (s : State rules)
    (r : option error) (s' : State rules) :
  Moved env n player s r s' -> Bounded s -> Bounded s'.
Proof.
  intros [s1 _ _ [_ _ Hch _] _
         | k m s0 r0 s1 _ _ _ _ _ _ _ [_ _ Hch _] _ _ Hsv _] Hb.
  - unfold Bounded in *. now rewrite Hch.
  - apply (Saved_bounded _ _ _ _ _ _ Hsv).
    unfold Bounded in *. now rewrite Hch.
Qed.

Lemma Bounded_step (s : State rules) :
  Bounded s -> Bounded (playGame_step env s).
Proof.
  intros Hb. unfold playGame_step.
  destruct (Outcome_eqb (GetOutcome (game s)) NoOutcome).
  - rewrite playGame_turn_unfold.
    destruct (makeMove env _ _) as [r s1] eqn:Hmk.
    apply makeMove_cases in Hmk. destruct Hmk as (Hm & _ & _).
    apply Moved_bounded in Hm; [ | exact Hb ].
    destruct r as [e|]; [ exact Hm | ].
    unfold Bounded. cbn. now apply trySend_bounded, drained_bounded.
  - rewrite playGame_over_unfold.
    pose proof (saveGameState_cases env (slot s) (lastMove s)
                  (Outcome_String (GetOutcome (game s)))
                  (snd (log (LogGameOver (GetOutcome (game s))) s)))
      as (Hsv & _).
    destruct (saveGameState env _ _ _ _) as [r s1]. cbn [fst snd] in Hsv.
    apply Saved_bounded in Hsv; [ exact Hsv | exact Hb ].
Qed.

Lemma Bounded_playGame (n : nat) : Bounded (playGame env n start).
Proof.
  induction n as [|n IH].
  - unfold Bounded. cbn. unfold Channel.capacity. lia.
  - rewrite playGame_S. now apply Bounded_step.
Qed.

End Backlog.

(** C9.  The send of the loop is a step of its own that always ends,
    with one of two results.  With room in the backlog, as the handlers
    have left it, the snapshot is put at its end; with a full backlog the
    snapshot is given up and the backlog stays as it is.  Nothing else of
    the loop's state changes, whatever the handlers are and however many;
    the handlers' side of the channel is not touched; and the backlog of
    a run never grows beyond the capacity of the channel. *)
Theorem C9_publish_never_blocks
    {rules : RulesEngine} (env : Env) (g : GameState) (s : State rules) :
  let q := skipn (drained env (sends s)) (gameStateChannel s) in
  let r := publish env g s in
  (if List.length q <? Channel.capacity
   then fst r = true /\ gameStateChannel (snd r) = q ++ [g]
   else fst r = false /\ gameStateChannel (snd r) = q)
  /\ game (snd r) = game s /\ moveHistory (snd r) = moveHistory s
  /\ lastMove (snd r) = lastMove s /\ playerIndex (snd r) = playerIndex s
  /\ moveCount (snd r) = moveCount s /\ rows (snd r) = rows s
  /\ trace (snd r) = trace s ++ [EvOffer g (fst r)]
  /\ (forall h : Channel.Hub,
        let h' := Channel.act h (Channel.Publish g) in
        Channel.frames h' = Channel.frames h
        /\ Channel.running h' = Channel.running h
        /\ Channel.backlog h'
           = (if List.length (Channel.backlog h) <? Channel.capacity
              then Channel.backlog h ++ [g] else Channel.backlog h))
  /\ (forall n,
        List.length (gameStateChannel (playGame env n start))
        <= Channel.capacity).
Proof.
  intros q r. unfold r, publish, Channel.trySend. fold q.
  split.
  { destruct (List.length q <? Channel.capacity); cbn; split; reflexivity. }
  repeat (split; [ reflexivity | ]).
  split.
  - intros h. unfold Channel.act, Channel.trySend.
    destruct (List.length (Channel.backlog h) <? Channel.capacity);
      repeat split.
  - intros n. apply Bounded_playGame.
Qed.

(** * Further properties of the code *)

(** ** Invariants of a run *)

Section RunInvariants.

Context {rules : RulesEngine}.
Variable env : Env.

(** What holds at the start and is kept by a step holds in every state
    of a run. *)
Lemma run_invariant (P : State rules -> Prop) :
  P start ->
  (forall s, P s -> P (playGame_step env s)) ->
  forall n, P (playGame env n start).
Proof.
  intros H0 Hstep n. induction n as [|n IH]; [ exact H0 | ].
  rewrite playGame_S. now apply Hstep.
Qed.

Lemma replay_snoc (ms : list string) (m : string) :
  forall g g' g'' : Game,
    replay g ms = Some g' -> MoveStr g' m = Some g'' ->
    replay g (ms ++ [m]) = Some g''.
Proof.
  induction ms as [|m0 ms IH]; intros g g' g'' Hr Hm; cbn in *.
  - injection Hr as <-. now rewrite Hm.
  - destruct (MoveStr g m0) as [g0|]; [ | discriminate ]. eauto.
Qed.

Lemma replay_step (s : State rules) :
  replay NewGame (moveHistory s) = Some (game s) ->
  replay NewGame (moveHistory (playGame_step env s))
  = Some (game (playGame_step env s)).
Proof.
  intros Hr. apply (step_by_cases env s).
  - intros Hover. destruct (step_over env s Hover) as ([Hg Hh _ _ _ _ _ _ _ _] & _).
    now rewrite Hg, Hh.
  - intros Hprog Hnone.
    destruct (step_exhausted env s Hprog Hnone) as ([Hg Hh _ _] & _).
    now rewrite Hg, Hh.
  - intros m Hprog Hsome.
    destruct (step_acquired env s m Hprog Hsome) as ([Hmv Hh _ _ _] & _).
    rewrite Hh. eapply replay_snoc; eassumption.
Qed.

(** The four cases of a step, with what each does. *)
Lemma step_cases (s : State rules) (P : Prop) :
  let s' := playGame_step env s in
  (in_progress s = false -> Restarted s s' ->
   match save_error env s with
   | None =>
       exists t,
         rows s' = rows s ++ [row_of (final_snapshot s t)]
         /\ offers (trace s') = offers (trace s) ++ [final_snapshot s t]
   | Some _ => rows s' = rows s /\ offers (trace s') = offers (trace s)
   end -> P) ->
  (in_progress s = true -> acquired env s = None ->
   SameGame s s' -> Silent s s' ->
   playerIndex s' = playerIndex s -> moveCount s' = moveCount s ->
   turns (trace s') = turns (trace s) ++ [slot s] ->
   failures (trace s') = failures (trace s) ++ [(slot s, ErrNoValidMove)] ->
   sleeps (trace s') = sleeps (trace s) ++ [5] -> P) ->
  (forall m, in_progress s = true -> acquired env s = Some m ->
   save_error env s = None -> Played s m s' -> Completed s m s' -> P) ->
  (forall m e, in_progress s = true -> acquired env s = Some m ->
   save_error env s = Some e -> Played s m s' -> Unsaved s e s' -> P) ->
  P.
Proof.
  intros s' Hover Hnone Hdone Hunsaved.
  apply (step_by_cases env s).
  - intros Ho. destruct (step_over env s Ho) as (Hre & Hsave).
    now apply Hover.
  - intros Hprog Hn.
    destruct (step_exhausted env s Hprog Hn) as (? & ? & ? & ? & ? & ? & ?).
    now apply Hnone.
  - intros m Hprog Hsome.
    destruct (step_acquired env s m Hprog Hsome) as (Hplayed & Hsave).
    destruct (save_error env s) as [e|] eqn:Herr.
    + now apply (Hunsaved m e).
    + now apply (Hdone m).
Qed.

Lemma pacing_step (s : State rules) :
  List.length (sleeps (trace s)) = List.length (turns (trace s)) ->
  Forall (fun d => d = 3 \/ d = 5) (sleeps (trace s)) ->
  count_occ Nat.eq_dec (sleeps (trace s)) 5
  = List.length (failures (trace s)) ->
  let s' := playGame_step env s in
  List.length (sleeps (trace s')) = List.length (turns (trace s'))
  /\ Forall (fun d => d = 3 \/ d = 5) (sleeps (trace s'))
  /\ count_occ Nat.eq_dec (sleeps (trace s')) 5
     = List.length (failures (trace s')).
Proof.
  intros Hlen Hall Hfail s'. apply (step_cases s).
  - intros _ [_ _ _ _ _ _ Ht Hf Hs _] _. fold s' in Ht, Hf, Hs.
    rewrite Ht, Hf, Hs. auto.
  - intros _ _ _ _ _ _ Ht Hf Hs. fold s' in Ht, Hf, Hs.
    rewrite Ht, Hf, Hs, !length_app, count_occ_app. cbn.
    repeat split; [ lia | | lia ].
    apply Forall_app. split; [ assumption | ]. constructor; auto.
  - intros m _ _ _ [_ _ _ _ Ht] [_ _ _ _ Hf Hs]. fold s' in Ht, Hf, Hs.
    rewrite Ht, Hf, Hs, !length_app, count_occ_app. cbn.
    repeat split; [ lia | | lia ].
    apply Forall_app. split; [ assumption | ]. constructor; auto.
  - intros m e _ _ _ [_ _ _ _ Ht] [_ _ _ Hf Hs]. fold s' in Ht, Hf, Hs.
    rewrite Ht, Hf, Hs, !length_app, count_occ_app. cbn.
    repeat split; [ lia | | lia ].
    apply Forall_app. split; [ assumption | ]. constructor; auto.
Qed.

Lemma budget_step (s : State rules) :
  requests s <= 3 * List.length (turns (trace s)) ->
  requests (playGame_step env s)
  <= 3 * List.length (turns (trace (playGame_step env s))).
Proof.
  intros Hb.
  destruct (playGame_step_cases env s) as (_ & _ & Hr).
  apply (step_cases s).
  - intros _ [_ _ _ _ _ _ Ht _ _ Hreq] _. rewrite Ht, Hreq. exact Hb.
  - intros _ _ _ _ _ _ Ht _ _. rewrite Ht, length_app. cbn. lia.
  - intros m _ _ _ [_ _ _ _ Ht] _. rewrite Ht, length_app. cbn. lia.
  - intros m e _ _ _ [_ _ _ _ Ht] _. rewrite Ht, length_app. cbn. lia.
Qed.

Lemma counters_step (s : State rules) :
  playerIndex s = moveCount s mod 2 ->
  moveCount s <= List.length (moveHistory s) ->
  let s' := playGame_step env s in
  playerIndex s' = moveCount s' mod 2
  /\ moveCount s' <= List.length (moveHistory s').
Proof.
  intros Hi Hc s'. apply (step_cases s).
  - intros _ [_ Hh _ Hi' Hc' _ _ _ _ _] _. fold s' in Hh, Hi', Hc'.
    rewrite Hh, Hi', Hc'. cbn. split; [ reflexivity | lia ].
  - intros _ _ [_ Hh _ _] _ Hi' Hc' _ _ _. fold s' in Hh, Hi', Hc'.
    rewrite Hh, Hi', Hc'. auto.
  - intros m _ _ _ [_ Hh _ _ _] [_ _ Hi' Hc' _ _]. fold s' in Hh, Hi', Hc'.
    rewrite Hh, Hi', Hc', length_app, Hi. split.
    + apply Nat.Div0.add_mod_idemp_l.
    + cbn [List.length]. lia.
  - intros m e _ _ _ [_ Hh _ _ _] [_ Hi' Hc' _ _]. fold s' in Hh, Hi', Hc'.
    rewrite Hh, Hi', Hc', length_app. cbn. split; [ assumption | lia ].
Qed.

Lemma replay_playGame (n : nat) :
  replay NewGame (moveHistory (playGame env n start))
  = Some (game (playGame env n start)).
Proof.
  apply (run_invariant
           (fun s => replay NewGame (moveHistory s) = Some (game s))).
  - reflexivity.
  - apply replay_step.
Qed.

Lemma save_error_with_db (s : State rules) (e : error) :
  db s = true -> save_error env s = Some e -> e = ErrSaving.
Proof.
  unfold save_error. intros ->. cbn.
  destruct (negb (execOk env (execs s))); [ | discriminate ]. congruence.
Qed.

Lemma slot_is_a_player (s : State rules) :
  playerIndex s < 2 -> slot s = "openai" \/ slot s = "anthropic".
Proof.
  unfold slot. intros Hi.
  destruct (playerIndex s) as [|[|i]]; cbn; [ auto | auto | lia ].
Qed.

End RunInvariants.

(** X1.  In every state of a run, the game is what the rules engine
    makes of the history: the moves of [moveHistory], played in their
    order from the initial position, are all accepted and lead to the
    current game. *)
Theorem game_is_replay_of_history
    {rules : RulesEngine} (env : Env) (n : nat) :
  let s := playGame env n start in
  replay NewGame (moveHistory s) = Some (game s).
Proof. apply replay_playGame. Qed.

(** X2.  The loop pauses once per turn and never otherwise: for three
    seconds after a turn that is completed, for five after a turn that
    fails, so in every run there are as many pauses as turns and as many
    pauses of five seconds as reported failures. *)
Theorem one_pause_per_turn {rules : RulesEngine} (env : Env) (n : nat) :
  let t := trace (playGame env n start) in
  List.length (sleeps t) = List.length (turns t)
  /\ Forall (fun d => d = 3 \/ d = 5) (sleeps t)
  /\ count_occ Nat.eq_dec (sleeps t) 5 = List.length (failures t).
Proof.
  apply (run_invariant env
           (fun s =>
              List.length (sleeps (trace s)) = List.length (turns (trace s))
              /\ Forall (fun d => d = 3 \/ d = 5) (sleeps (trace s))
              /\ count_occ Nat.eq_dec (sleeps (trace s)) 5
                 = List.length (failures (trace s)))).
  - repeat split. constructor.
  - intros s (H1 & H2 & H3). now apply pacing_step.
Qed.

(** X3.  A run never asks the providers for more than three moves per
    turn: the number of requests made so far is at most three times the
    number of turns started, whatever the providers answer. *)
Theorem request_budget {rules : RulesEngine} (env : Env) (n : nat) :
  let s := playGame env n start in
  requests s <= 3 * List.length (turns (trace s))
  /\ List.length (turns (trace s)) <= n.
Proof.
  cbv zeta. split.
  - apply (run_invariant env
             (fun s => requests s <= 3 * List.length (turns (trace s)))).
    + exact (Nat.le_refl 0).
    + apply budget_step.
  - induction n as [|n IH]; [ exact (Nat.le_refl 0) | ].
    rewrite playGame_S. apply (step_cases env (playGame env n start)).
    + intros _ [_ _ _ _ _ _ Ht _ _ _] _. rewrite Ht. lia.
    + intros _ _ _ _ _ _ Ht _ _. rewrite Ht, length_app. cbn. lia.
    + intros m _ _ _ [_ _ _ _ Ht] _. rewrite Ht, length_app. cbn. lia.
    + intros m e _ _ _ [_ _ _ _ Ht] _. rewrite Ht, length_app. cbn. lia.
Qed.

(** X4.  [playerIndex] is the parity of [moveCount] in every state of a
    run, and [moveCount], the number of the "Completed move" lines of the
    game, never exceeds the number of moves in the history. *)
Theorem playerIndex_is_parity_of_moveCount
    {rules : RulesEngine} (env : Env) (n : nat) :
  let s := playGame env n start in
  playerIndex s = moveCount s mod 2
  /\ moveCount s <= List.length (moveHistory s).
Proof.
  apply (run_invariant env
           (fun s => playerIndex s = moveCount s mod 2
                     /\ moveCount s <= List.length (moveHistory s))).
  - split; [ reflexivity | cbn; lia ].
  - intros s (Hi & Hc). now apply counters_step.
Qed.

(** X5.  When every write succeeds, every move that is applied completes
    its turn: [moveCount] is the length of the history, and the slot to
    move is the one at the parity of that length, so openai makes the
    first, third, fifth move of every game and anthropic the others. *)
Theorem slots_follow_the_history
    {rules : RulesEngine} (env : Env) (n : nat) :
  (forall i, execOk env i = true) ->
  let s := playGame env n start in
  moveCount s = List.length (moveHistory s)
  /\ slot s = nth (List.length (moveHistory s) mod 2) players "".
Proof.
  intros Hex. cbv zeta.
  assert (H : db (playGame env n start) = true
              /\ playerIndex (playGame env n start)
                 = moveCount (playGame env n start) mod 2
              /\ moveCount (playGame env n start)
                 = List.length (moveHistory (playGame env n start))).
  { apply (run_invariant env
             (fun s => db s = true
                       /\ playerIndex s = moveCount s mod 2
                       /\ moveCount s = List.length (moveHistory s))).
    - repeat split.
    - intros s (Hdb & Hi & Hc).
      destruct (playGame_step_cases env s) as (_ & Hdb' & _).
      split; [ congruence | ].
      apply (step_cases env s).
      + intros _ [_ Hh _ Hi' Hc' _ _ _ _ _] _. now rewrite Hh, Hi', Hc'.
      + intros _ _ [_ Hh _ _] _ Hi' Hc' _ _ _. rewrite Hh, Hi', Hc'. auto.
      + intros m _ _ _ [_ Hh _ _ _] [_ _ Hi' Hc' _ _].
        rewrite Hh, Hi', Hc', length_app, Hi, <- Hc. split.
        * apply Nat.Div0.add_mod_idemp_l.
        * reflexivity.
      + intros m e _ _ Herr _ _.
        rewrite (save_error_None env s Hdb Hex) in Herr. discriminate. }
  destruct H as (_ & Hi & Hc). split; [ exact Hc | ].
  unfold slot. now rewrite Hi, Hc.
Qed.

Lemma slots_follow_the_history_witness :
  (forall i, execOk FoolsMate.quiet i = true)
  /\ slot (playGame FoolsMate.quiet 3 (start (rules := FoolsMate.engine)))
     = "anthropic".
Proof.
  split; [ reflexivity | ].
  exact (proj2 (slots_follow_the_history (rules := FoolsMate.engine)
                  FoolsMate.quiet 3 (fun _ => eq_refl))).
Defined.

(** X6.  The database handle is set before the loop starts and never
    changes, so the check of [saveGameState] for a missing connection
    never fires in a run: no turn fails with "database connection is not
    initialized", and no call of [saveGameState] returns it. *)
Theorem missing_connection_error_never_occurs
    {rules : RulesEngine} (env : Env) (n : nat) :
  let s := playGame env n start in
  db s = true
  /\ (forall p, ~ In (p, ErrDbNotInitialized) (failures (trace s)))
  /\ (forall player move outcome,
        fst (saveGameState env player move outcome s)
        <> Some ErrDbNotInitialized).
Proof.
  cbv zeta.
  assert (Hdb : db (playGame env n start) = true) by apply db_playGame.
  split; [ exact Hdb | split ].
  - apply (run_invariant env
             (fun s => db s = true ->
                       forall p, ~ In (p, ErrDbNotInitialized)
                                     (failures (trace s)))); [ | | exact Hdb ].
    + intros _ p [].
    + intros s IH Hdb' p.
      destruct (playGame_step_cases env s) as (_ & Hd & _).
      assert (Hs : db s = true) by congruence.
      specialize (IH Hs).
      apply (step_cases env s).
      * intros _ [_ _ _ _ _ _ _ Hf _ _] _. rewrite Hf. apply IH.
      * intros _ _ _ _ _ _ _ Hf _. rewrite Hf, in_app_iff.
        intros [Hin | [Heq | []]]; [ now apply (IH p) | discriminate ].
      * intros m _ _ _ _ [_ _ _ _ Hf _]. rewrite Hf. apply IH.
      * intros m e _ _ Herr _ [_ _ _ Hf _]. rewrite Hf, in_app_iff.
        apply (save_error_with_db env s e Hs) in Herr. subst e.
        intros [Hin | [Heq | []]]; [ now apply (IH p) | discriminate ].
  - intros player move outcome.
    destruct (saveGameState_cases env player move outcome (playGame env n start))
      as (Hsv & _).
    destruct Hsv; congruence.
Qed.

(** ** The snapshots and the rows of a run *)

Section Snapshots.

Context {rules : RulesEngine}.
Variable env : Env.

Lemma Sound_after_move (s s' : State rules) (m : string) (t : nat)
    (outcome : string) :
  playerIndex s < 2 ->
  replay NewGame (moveHistory s) = Some (game s) ->
  MoveStr (game s) m = Some (game s') ->
  Sound_snapshot
    (mkGameState 0 (FEN (game s')) m (slot s) t (moveHistory s ++ [m]) outcome).
Proof.
  intros Hi Hr Hmv. unfold Sound_snapshot. cbn.
  split; [ reflexivity | ].
  split; [ intros H; now apply app_eq_nil in H as (_ & H) | ].
  split; [ now rewrite last_last | ].
  split; [ now apply slot_is_a_player | ].
  exists (game s'). split; [ | reflexivity ].
  eapply replay_snoc; eassumption.
Qed.

Lemma Sound_final (s : State rules) (t : nat) :
  GetOutcome NewGame = NoOutcome ->
  in_progress s = false ->
  playerIndex s < 2 ->
  replay NewGame (moveHistory s) = Some (game s) ->
  lastMove s = last (moveHistory s) "" ->
  Sound_snapshot (final_snapshot s t).
Proof.
  intros Hnew Hover Hi Hr Hl. unfold Sound_snapshot, final_snapshot. cbn.
  split; [ reflexivity | ].
  split.
  { intros Hnil. rewrite Hnil in Hr. cbn in Hr. injection Hr as Hg.
    unfold in_progress in Hover. rewrite <- Hg, Hnew in Hover. discriminate. }
  split; [ exact Hl | ].
  split; [ now apply slot_is_a_player | ].
  exists (game s). now split.
Qed.

Lemma rows_and_offers_step (s : State rules) :
  (forall r, In r (rows s) ->
     exists g, In g (offers (trace s)) /\ r = row_of g) ->
  (forall g, In g (offers (trace s)) ->
     exists r, In r (rows s) /\ row_matches r g) ->
  List.length (rows s) <= List.length (offers (trace s)) ->
  List.length (offers (trace s)) <= 2 * List.length (rows s) ->
  let s' := playGame_step env s in
  (forall r, In r (rows s') ->
     exists g, In g (offers (trace s')) /\ r = row_of g)
  /\ (forall g, In g (offers (trace s')) ->
        exists r, In r (rows s') /\ row_matches r g)
  /\ List.length (rows s') <= List.length (offers (trace s'))
  /\ List.length (offers (trace s')) <= 2 * List.length (rows s').
Proof.
  intros Hrow Hoff Hle Hge s'.
  assert (Hsame : rows s' = rows s -> offers (trace s') = offers (trace s) ->
                  (forall r, In r (rows s') ->
                     exists g, In g (offers (trace s')) /\ r = row_of g)
                  /\ (forall g, In g (offers (trace s')) ->
                        exists r, In r (rows s') /\ row_matches r g)
                  /\ List.length (rows s') <= List.length (offers (trace s'))
                  /\ List.length (offers (trace s'))
                     <= 2 * List.length (rows s')).
  { intros -> ->. auto. }
  apply (step_cases env s).
  - intros _ _ Hsave. fold s' in Hsave. destruct (save_error env s).
    + destruct Hsave as (Hr & Ho). now apply Hsame.
    + destruct Hsave as (t & Hr & Ho). rewrite Hr, Ho. repeat split.
      * intros r [Hin | [<- | []]] %in_app_iff.
        -- destruct (Hrow r Hin) as (g & Hg & ->).
           exists g. split; [ apply in_app_iff; now left | reflexivity ].
        -- exists (final_snapshot s t).
           split; [ apply in_app_iff; right; now left | reflexivity ].
      * intros g [Hin | [<- | []]] %in_app_iff.
        -- destruct (Hoff g Hin) as (r & Hr' & Hm).
           exists r. split; [ apply in_app_iff; now left | exact Hm ].
        -- exists (row_of (final_snapshot s t)).
           split; [ apply in_app_iff; right; now left | ].
           repeat split.
      * rewrite !length_app. cbn. lia.
      * rewrite !length_app. cbn. lia.
  - intros _ _ _ [Hr Ho _ _] _ _ _ _ _. fold s' in Hr, Ho. now apply Hsame.
  - intros m _ _ _ _ [Hr (t1 & t2 & Ho) _ _ _ _]. fold s' in Hr, Ho.
    rewrite Hr, Ho. repeat split.
    + intros r [Hin | [<- | []]] %in_app_iff.
      * destruct (Hrow r Hin) as (g & Hg & ->).
        exists g. split; [ apply in_app_iff; now left | reflexivity ].
      * exists (save_snapshot s s' m t1).
        split; [ apply in_app_iff; right; now left | reflexivity ].
    + intros g [Hin | [<- | [<- | []]]] %in_app_iff.
      * destruct (Hoff g Hin) as (r & Hr' & Hm).
        exists r. split; [ apply in_app_iff; now left | exact Hm ].
      * eexists. split; [ apply in_app_iff; right; now left | ].
        repeat split.
      * eexists. split; [ apply in_app_iff; right; now left | ].
        repeat split.
    + rewrite !length_app. cbn. lia.
    + rewrite !length_app. cbn. lia.
  - intros m e _ _ _ _ [[Hr Ho _ _] _ _ _ _]. fold s' in Hr, Ho.
    now apply Hsame.
Qed.

End Snapshots.

(** X7.  Every snapshot a run offers to the channel is sound: its [id]
    is 0 (the identifier the table assigns is never read back), its
    history has at least one move and ends with its [lastMove], its
    [lastPlayer] is one of the two slots, and its FEN is the position the
    rules engine reaches by playing its history from the start. *)
Theorem every_snapshot_is_sound
    {rules : RulesEngine} (env : Env) (n : nat) :
  GetOutcome NewGame = NoOutcome ->
  Forall Sound_snapshot (offers (trace (playGame env n start))).
Proof.
  intros Hnew. induction n as [|n IH]; [ constructor | ].
  rewrite playGame_S.
  pose proof (playerIndex_in_range env n) as Hi.
  pose proof (replay_playGame env n) as Hr.
  destruct (history_playGame env n) as (_ & Hl).
  set (s := playGame env n start) in *.
  apply (step_cases env s).
  - intros Hover _ Hsave. destruct (save_error env s).
    + destruct Hsave as (_ & ->). exact IH.
    + destruct Hsave as (t & _ & ->). apply Forall_app. split; [ exact IH | ].
      constructor; [ | constructor ]. now apply Sound_final.
  - intros _ _ _ [_ Ho _ _] _ _ _ _ _. now rewrite Ho.
  - intros m _ _ _ [Hmv _ _ _ _] [_ (t1 & t2 & ->) _ _ _ _].
    apply Forall_app. split; [ exact IH | ].
    constructor; [ | constructor; [ | constructor ] ];
      now apply Sound_after_move.
  - intros m e _ _ _ _ [[_ Ho _ _] _ _ _ _]. now rewrite Ho.
Qed.

Lemma every_snapshot_is_sound_witness :
  GetOutcome (NewGame (RulesEngine := FoolsMate.engine)) = NoOutcome
  /\ Forall Sound_snapshot
       (offers (trace (playGame FoolsMate.quiet 5
                         (start (rules := FoolsMate.engine))))).
Proof.
  split; [ reflexivity | ].
  exact (every_snapshot_is_sound (rules := FoolsMate.engine)
           FoolsMate.quiet 5 eq_refl).
Defined.

(** X8.  The table and the channel go together.  Every row of the table
    is the row of a snapshot that was offered to the channel, and every
    snapshot offered has a row with its position, move, player and
    history: nothing is written without being offered, nothing is offered
    before it is written.  There are at most two snapshots to a row. *)
Theorem rows_and_snapshots_agree
    {rules : RulesEngine} (env : Env) (n : nat) :
  let s := playGame env n start in
  (forall r, In r (rows s) ->
     exists g, In g (offers (trace s)) /\ r = row_of g)
  /\ (forall g, In g (offers (trace s)) ->
        exists r, In r (rows s) /\ row_matches r g)
  /\ List.length (rows s) <= List.length (offers (trace s))
  /\ List.length (offers (trace s)) <= 2 * List.length (rows s).
Proof.
  apply (run_invariant env
           (fun s =>
              (forall r, In r (rows s) ->
                 exists g, In g (offers (trace s)) /\ r = row_of g)
              /\ (forall g, In g (offers (trace s)) ->
                    exists r, In r (rows s) /\ row_matches r g)
              /\ List.length (rows s) <= List.length (offers (trace s))
              /\ List.length (offers (trace s)) <= 2 * List.length (rows s))).
  - repeat split; try (intros ? []). 
    + exact (Nat.le_refl 0).
    + exact (Nat.le_refl 0).
  - intros s (H1 & H2 & H3 & H4). now apply rows_and_offers_step.
Qed.

(** ** The channel and its readers *)

Section ChannelOrder.

Context {A : Type}.

Lemma Subseq_refl (l : list A) : Subseq l l.
Proof. induction l; constructor; assumption. Qed.

Lemma Subseq_nil_l (l : list A) : Subseq [] l.
Proof. induction l; constructor; assumption. Qed.

Lemma Subseq_app_r (l1 l2 l3 : list A) :
  Subseq l1 l2 -> Subseq l1 (l2 ++ l3).
Proof.
  induction 1; cbn.
  - apply Subseq_nil_l.
  - now constructor.
  - now constructor.
Qed.

Lemma delivered_to_Subseq (i : nat) (ts : list (nat * A * bool)) :
  Subseq (Channel.delivered_to i ts) (map Channel.item ts).
Proof.
  induction ts as [|t ts IH]; [ constructor | ].
  rewrite delivered_to_cons. cbn [map].
  destruct (Nat.eqb (fst (fst t)) i && snd t); cbn; now constructor.
Qed.

Lemma stopped_handler_act (h : Channel.Hub (A := A)) (i : nat)
    (x : Channel.Action) :
  Channel.running h i = false -> connects i x = false ->
  Channel.running (Channel.act h x) i = false
  /\ Channel.frames (Channel.act h x) i = Channel.frames h i.
Proof.
  intros Hr Hc. destruct h as [q f r]. cbn in Hr.
  destruct x as [a | j | j ok | j]; cbn in *.
  - auto.
  - unfold Channel.upd. rewrite Nat.eqb_sym, Hc. auto.
  - destruct (r j) eqn:Hj; cbn; [ | auto ].
    assert (Hij : Nat.eqb i j = false).
    { destruct (Nat.eqb i j) eqn:E; [ | reflexivity ].
      apply Nat.eqb_eq in E. subst. congruence. }
    destruct q as [|a q]; cbn; [ auto | ].
    destruct ok; cbn; unfold Channel.upd; rewrite Hij; auto.
  - unfold Channel.upd. destruct (Nat.eqb i j); auto.
Qed.

Lemma stopped_handler_run (xs : list (Channel.Action (A := A))) (i : nat) :
  forall h : Channel.Hub,
    Channel.running h i = false -> no_connect i xs = true ->
    Channel.running (Channel.run h xs) i = false
    /\ Channel.frames (Channel.run h xs) i = Channel.frames h i.
Proof.
  induction xs as [|x xs IH]; intros h Hr Hn; [ auto | ].
  cbn in Hn. apply andb_prop in Hn as (Hx & Hn).
  apply negb_true_iff in Hx.
  destruct (stopped_handler_act h i x Hr Hx) as (Hr' & Hf').
  cbn [Channel.run fold_left]. fold (Channel.run (Channel.act h x) xs).
  destruct (IH (Channel.act h x) Hr' Hn) as (Hr'' & Hf''). split; congruence.
Qed.

Lemma firstn_trySend (l q : list A) (a : A) :
  q = firstn Channel.capacity l ->
  fst (Channel.trySend q a) = firstn Channel.capacity (l ++ [a]).
Proof.
  intros ->. unfold Channel.trySend.
  destruct (List.length (firstn Channel.capacity l) <? Channel.capacity) eqn:E;
    cbn [fst]; rewrite length_firstn in E.
  - apply Nat.ltb_lt in E.
    assert (Hl : List.length l < Channel.capacity) by lia.
    rewrite (firstn_all2 l) by lia.
    rewrite firstn_all2; [ reflexivity | ].
    rewrite length_app. cbn. lia.
  - apply Nat.ltb_ge in E.
    assert (Hl : Channel.capacity <= List.length l) by lia.
    rewrite firstn_app.
    replace (Channel.capacity - List.length l) with 0 by lia.
    cbn. now rewrite app_nil_r.
Qed.

End ChannelOrder.

(** X9.  A handler writes the snapshots to its client in the order in
    which the channel took them, each at most once: what it has written
    since a state of the hub is a subsequence of the backlog of that
    state followed by the snapshots accepted since, and from the empty
    hub a subsequence of the accepted snapshots. *)
Theorem frames_keep_the_order
    (h : Channel.Hub (A := GameState))
    (xs : list (Channel.Action (A := GameState))) (i : nat) :
  (exists d,
     Channel.frames (Channel.run h xs) i = Channel.frames h i ++ d
     /\ Subseq d (Channel.backlog h ++ Channel.sent h xs))
  /\ Subseq (Channel.frames (Channel.run Channel.empty xs) i)
       (Channel.sent Channel.empty xs).
Proof.
  assert (H : forall h0 : Channel.Hub (A := GameState),
            Subseq (Channel.delivered_to i (Channel.taken h0 xs))
              (Channel.backlog h0 ++ Channel.sent h0 xs)).
  { intros h0. rewrite hub_accounting.
    apply Subseq_app_r, delivered_to_Subseq. }
  split.
  - exists (Channel.delivered_to i (Channel.taken h xs)).
    split; [ apply hub_frames | apply H ].
  - rewrite hub_frames. apply (H Channel.empty).
Qed.

(** X10.  A handler whose write to the client fails returns: the
    snapshot it had received is gone from the channel and reaches no
    client, and the handler receives and writes nothing more, whatever is
    published, until a new request arrives for it. *)
Theorem failed_write_ends_the_handler
    (h : Channel.Hub (A := GameState)) (i : nat) (a : GameState)
    (q : list GameState) (xs : list (Channel.Action (A := GameState))) :
  Channel.running h i = true ->
  Channel.backlog h = a :: q ->
  no_connect i xs = true ->
  let h1 := Channel.act h (Channel.Receive i false) in
  Channel.backlog h1 = q
  /\ (forall j, Channel.frames h1 j = Channel.frames h j)
  /\ Channel.running (Channel.run h1 xs) i = false
  /\ Channel.frames (Channel.run h1 xs) i = Channel.frames h i.
Proof.
  intros Hr Hb Hn h1.
  assert (H1 : Channel.backlog h1 = q
               /\ (forall j, Channel.frames h1 j = Channel.frames h j)
               /\ Channel.running h1 i = false).
  { unfold h1. destruct h as [q0 f r]. cbn in *. rewrite Hr, Hb. cbn.
    repeat split. unfold Channel.upd. now rewrite Nat.eqb_refl. }
  destruct H1 as (Hq & Hf & Hstop).
  destruct (stopped_handler_run xs i h1 Hstop Hn) as (Hr' & Hf').
  repeat split; try assumption. now rewrite Hf', Hf.
Qed.

Lemma failed_write_ends_the_handler_witness :
  let h := Channel.run Channel.empty
             [Channel.Connect 0; Channel.Publish opening] in
  Channel.running h 0 = true
  /\ Channel.backlog h = [opening]
  /\ no_connect 0 [Channel.Publish opening; Channel.Receive 0 true] = true
  /\ Channel.frames
       (Channel.run (Channel.act h (Channel.Receive 0 false))
          [Channel.Publish opening; Channel.Receive 0 true]) 0
     = [].
Proof.
  split; [ reflexivity | split; [ reflexivity | split; [ reflexivity | ] ] ].
  exact (proj2 (proj2 (proj2
    (failed_write_ends_the_handler
       (Channel.run Channel.empty [Channel.Connect 0; Channel.Publish opening])
       0 opening []
       [Channel.Publish opening; Channel.Receive 0 true]
       eq_refl eq_refl eq_refl)))).
Defined.

Section StaleBacklog.

Context {rules : RulesEngine}.
Variable env : Env.

Hypothesis nobody_reads : forall k, drained env k = 0.

Lemma Saved_oldest (player move outcome : string) (s : State rules)
    (r : option error) (s' : State rules) :
  Saved env player move outcome s r s' -> Oldest s -> Oldest s'.
Proof.
  unfold Oldest.
  intros [s1 _ -> | s1 _ _ [_ Ho Hch _] _ | s1 _ _ _ Ho _ _ Hch] Hb.
  - exact Hb.
  - now rewrite Hch, Ho.
  - rewrite Hch, Ho, nobody_reads. cbn [skipn]. now apply firstn_trySend.
Qed.

Lemma Moved_oldest (n : nat) (player : string) (s : State rules)
    (r : option error) (s' : State rules) :
  Moved env n player s r s' -> Oldest s -> Oldest s'.
Proof.
  intros [s1 _ _ [_ Ho Hch _] _
         | k m s0 r0 s1 _ _ _ _ _ _ _ [_ Ho Hch _] _ _ Hsv _] Hb.
  - unfold Oldest in *. now rewrite Hch, Ho.
  - apply (Saved_oldest _ _ _ _ _ _ Hsv).
    unfold Oldest in *. now rewrite Hch, Ho.
Qed.

Lemma Oldest_step (s : State rules) :
  Oldest s -> Oldest (playGame_step env s).
Proof.
  intros Hb. unfold playGame_step.
  destruct (Outcome_eqb (GetOutcome (game s)) NoOutcome).
  - rewrite playGame_turn_unfold.
    destruct (makeMove env _ _) as [r s1] eqn:Hmk.
    apply makeMove_cases in Hmk. destruct Hmk as (Hm & _ & _).
    apply Moved_oldest in Hm.
    + destruct r as [e|]; unfold Oldest in *; cbn;
        autorewrite with trace; cbn; autorewrite with trace.
      * exact Hm.
      * rewrite nobody_reads. cbn [skipn]. now apply firstn_trySend.
    + unfold Oldest in *. cbn. autorewrite with trace. cbn.
      now autorewrite with trace.
  - rewrite playGame_over_unfold.
    pose proof (saveGameState_cases env (slot s) (lastMove s)
                  (Outcome_String (GetOutcome (game s)))
                  (snd (log (LogGameOver (GetOutcome (game s))) s)))
      as (Hsv & _).
    destruct (saveGameState env _ _ _ _) as [r s1]. cbn [fst snd] in Hsv.
    apply Saved_oldest in Hsv.
    + unfold Oldest in *. cbn.
      destruct r; autorewrite with trace; cbn; autorewrite with trace;
        exact Hsv.
    + unfold Oldest in *. cbn. autorewrite with trace. cbn.
      now autorewrite with trace.
Qed.

End StaleBacklog.

(** X11.  When no client reads the stream, the channel keeps the first
    hundred snapshots the process offers and gives up every later one:
    the backlog is always the beginning of the list of offered
    snapshots, never its end. *)
Theorem unread_channel_keeps_the_oldest
    {rules : RulesEngine} (env : Env) (n : nat) :
  (forall k, drained env k = 0) ->
  let s := playGame env n start in
  gameStateChannel s = firstn Channel.capacity (offers (trace s)).
Proof.
  intros H. cbv zeta. fold (Oldest (playGame env n start)).
  induction n as [|n IH]; [ reflexivity | ].
  rewrite playGame_S. now apply Oldest_step.
Qed.

Lemma unread_channel_keeps_the_oldest_witness :
  (forall k, drained FoolsMate.quiet k = 0)
  /\ List.length
       (gameStateChannel
          (playGame FoolsMate.quiet 60 (start (rules := FoolsMate.engine))))
     = 100.
Proof.
  split; [ reflexivity | ].
  rewrite (unread_channel_keeps_the_oldest (rules := FoolsMate.engine)
             FoolsMate.quiet 60 (fun _ => eq_refl)).
  vm_compute. reflexivity.
Defined.

(** ** The requests of a turn *)

Lemma asked_snoc (t : list Event) (e : Event) :
  asked (t ++ [e]) = asked t ++ ask_of e.
Proof. unfold asked. rewrite flat_map_app. cbn. now rewrite app_nil_r. Qed.

#[export] Hint Rewrite @asked_snoc : trace.

Section Requests.

Context {rules : RulesEngine}.
Variable env : Env.

Ltac tidy :=
  cbn; autorewrite with trace; cbn; autorewrite with trace;
  try reflexivity.

Lemma is_provider_cases (player : string) :
  is_provider player = true ->
  String.eqb player "openai" = true
  \/ String.eqb player "openai" = false
     /\ String.eqb player "anthropic" = true.
Proof.
  unfold is_provider.
  destruct (String.eqb player "openai"); cbn; auto.
Qed.

(** [saveGameState] calls no provider. *)
Lemma saveGameState_asked (player move outcome : string) (s : State rules) :
  asked (trace (snd (saveGameState env player move outcome s)))
  = asked (trace s).
Proof.
  unfold saveGameState, bind, get, time_Now, db_Exec, publish, log, emit, ret.
  destruct (db s); cbn; [ | reflexivity ].
  destruct (execOk env (execs s)); cbn; [ | tidy ].
  destruct (Channel.trySend _ _) as [q []]; tidy.
Qed.

(** The call of a provider, as [getMove] makes it for one of the two
    players. *)
Lemma getMove_provider (player fen : string) (isRetry : bool)
    (last : string) (s : State rules) :
  is_provider player = true ->
  getMove env player fen isRetry last s
  = (answer env player (requests s),
     mkState (db s) (game s) (moveHistory s) (gameStateChannel s)
       (lastMove s) (playerIndex s) (moveCount s) (S (requests s))
       (execs s) (sends s) (rows s)
       (trace s ++ [EvRequest player fen isRetry last])).
Proof.
  intros Hp. unfold getMove, answer, call_provider, bind, ret.
  destruct (is_provider_cases player Hp) as [-> | (-> & ->)];
    [ destruct (openAIReply env (requests s))
    | destruct (anthropicReply env (requests s)) ]; reflexivity.
Qed.

Lemma attempts_requests (remaining : nat) (player fen : string) (n0 : nat) :
  is_provider player = true ->
  forall (last : string) (s : State rules),
    remaining <= 3 ->
    requests s = n0 + (3 - remaining) ->
    last = feedback env player n0 (3 - remaining) ->
    let s' := snd (makeMove_attempts env remaining player fen last s) in
    let k := attempts_used env (game s) player (requests s) remaining in
    asked (trace s')
    = asked (trace s)
      ++ map (fun j => (player, fen, 0 <? j, feedback env player n0 j))
           (seq (3 - remaining) k)
    /\ requests s' = requests s + k.
Proof.
  intros Hp.
  induction remaining as [|r IH]; intros last s Hle Hreq Hlast.
  - cbn. rewrite app_nil_r. split; [ reflexivity | lia ].
  - cbv zeta. rewrite makeMove_attempts_round, (getMove_provider _ _ _ _ _ Hp).
    cbn [attempts_used].
    assert (Hnext : 3 - r = S (3 - S r)) by lia.
    destruct (answer env player (requests s)) as [m|e] eqn:Hans.
    + cbn [game rejected].
      destruct (MoveStr (game s) m) as [g'|] eqn:Hmv.
      * destruct (saveGameState_cases env player m ""
                    (move_applied g' m player
                       (mkState (db s) (game s) (moveHistory s)
                          (gameStateChannel s) (lastMove s) (playerIndex s)
                          (moveCount s) (S (requests s)) (execs s) (sends s)
                          (rows s)
                          (trace s ++ [EvRequest player fen (0 <? 3 - S r) last]))))
          as (_ & _ & _ & Hr).
        rewrite saveGameState_asked, Hr. unfold move_applied. tidy.
        subst last. split; [ reflexivity | lia ].
      * match goal with
        | |- context [makeMove_attempts env r player fen m ?st] =>
            destruct (IH m st) as (Ha & Hr)
        end.
        -- lia.
        -- unfold log, emit. cbn [snd requests]. lia.
        -- rewrite Hnext. cbn [feedback]. rewrite <- Hreq, Hans. reflexivity.
        -- cbv zeta in Ha, Hr. rewrite Ha, Hr. cbn [game requests].
           rewrite Hnext. tidy. rewrite <- app_assoc. cbn. subst last.
           split; [ reflexivity | lia ].
    + cbn [rejected].
      match goal with
      | |- context [makeMove_attempts env r player fen last ?st] =>
          destruct (IH last st) as (Ha & Hr)
      end.
      * lia.
      * unfold log, emit. cbn [snd requests]. lia.
      * rewrite Hnext. cbn [feedback]. rewrite <- Hreq, Hans. exact Hlast.
      * cbv zeta in Ha, Hr. rewrite Ha, Hr. cbn [game requests].
        rewrite Hnext. tidy. rewrite <- app_assoc. cbn. subst last.
        split; [ reflexivity | lia ].
Qed.

Lemma attempts_used_bounds (g : Game) (player : string) (remaining : nat) :
  forall n,
    attempts_used env g player n remaining <= remaining
    /\ (0 < remaining -> 0 < attempts_used env g player n remaining).
Proof.
  induction remaining as [|r IH]; intros n; cbn; [ lia | ].
  destruct (rejected g (answer env player n)); [ | lia ].
  destruct (IH (S n)). lia.
Qed.

End Requests.

(** The requests of a call of [makeMove], in closed form. *)
Lemma requests_of_a_turn_core
    {rules : RulesEngine} (env : Env) (player : string) (s : State rules) :
  is_provider player = true ->
  let s' := snd (makeMove env player s) in
  let k := attempts_used env (game s) player (requests s) 3 in
  asked (trace s')
  = asked (trace s) ++ map (request_of env player s) (seq 0 k)
  /\ requests s' = requests s + k
  /\ 1 <= k <= 3
  /\ sleeps (trace s') = sleeps (trace s).
Proof.
  intros Hp s' k.
  destruct (attempts_requests env 3 player (FEN (game s)) (requests s) Hp ""
              (snd (log (LogGettingMove player (FEN (game s))) s)))
    as (Ha & Hr).
  - lia.
  - cbn. lia.
  - reflexivity.
  - cbv zeta in Ha, Hr. rewrite <- makeMove_unfold in Ha, Hr.
    fold s' in Ha, Hr. cbn [game requests snd log emit] in Ha, Hr.
    fold k in Ha, Hr.
    split; [ | split; [ exact Hr | split ] ].
    + rewrite Ha. unfold log, emit. cbn [snd trace]. rewrite asked_snoc.
      cbn [ask_of]. rewrite app_nil_r. reflexivity.
    + destruct (attempts_used_bounds env (game s) player 3 (requests s)).
      unfold k. lia.
    + unfold s'. destruct (makeMove env player s) as [r s1] eqn:Hmk.
      cbn [snd]. apply makeMove_cases in Hmk.
      destruct Hmk as (_ & [] & _). assumption.
Qed.

(** X12.  The requests of a turn.  For one of the two players [makeMove]
    asks the provider once per attempt, up to and with the first attempt
    that succeeds, so between one and three times, with no pause in
    between.  Every request carries the position at the start of the
    turn.  The first is not a retry and names no move; every later one
    is a retry and names the text of the latest earlier attempt in which
    the provider answered, the empty text if it has not answered yet. *)
Theorem requests_of_a_turn
    {rules : RulesEngine} (env : Env) (player : string) (s : State rules) :
  is_provider player = true ->
  let s' := snd (makeMove env player s) in
  let k := attempts_used env (game s) player (requests s) 3 in
  asked (trace s')
  = asked (trace s) ++ map (request_of env player s) (seq 0 k)
  /\ requests s' = requests s + k
  /\ 1 <= k <= 3
  /\ sleeps (trace s') = sleeps (trace s).
Proof. apply requests_of_a_turn_core. Qed.

Lemma requests_of_a_turn_witness :
  is_provider "openai" = true
  /\ asked (trace (snd (makeMove FoolsMate.stubborn "openai"
                          (start (rules := FoolsMate.engine)))))
     = [("openai", "rnbqkbnr/pppppppp/8/8/8/8/PPPPPPPP/RNBQKBNR w KQkq - 0 1",
         false, "");
        ("openai", "rnbqkbnr/pppppppp/8/8/8/8/PPPPPPPP/RNBQKBNR w KQkq - 0 1",
         true, "z9");
        ("openai", "rnbqkbnr/pppppppp/8/8/8/8/PPPPPPPP/RNBQKBNR w KQkq - 0 1",
         true, "z9")].
Proof.
  split; [ reflexivity | ].
  exact (proj1 (requests_of_a_turn (rules := FoolsMate.engine)
                  FoolsMate.stubborn "openai" start eq_refl)).
Defined.

Section UnknownPlayer.

Context {rules : RulesEngine}.
Variable env : Env.

Lemma getMove_unknown (player fen : string) (isRetry : bool) (last : string)
    (s : State rules) :
  is_provider player = false ->
  getMove env player fen isRetry last s = (inr (ErrUnknownPlayer player), s).
Proof.
  unfold is_provider, getMove. intros H.
  apply orb_false_elim in H as (-> & ->). reflexivity.
Qed.

Lemma attempts_unknown (remaining : nat) (player fen : string) :
  is_provider player = false ->
  forall (last : string) (s : State rules),
    let r := makeMove_attempts env remaining player fen last s in
    fst r = Some ErrNoValidMove
    /\ requests (snd r) = requests s
    /\ asked (trace (snd r)) = asked (trace s)
    /\ List.length (trace (snd r)) = List.length (trace s) + remaining.
Proof.
  intros Hp. induction remaining as [|n IH]; intros last s.
  - cbn. repeat split. lia.
  - cbv zeta. rewrite makeMove_attempts_round, (getMove_unknown _ _ _ _ _ Hp).
    destruct (IH last (snd (log (LogErrorGettingMove player (3 - S n + 1)
                                   (ErrUnknownPlayer player)) s)))
      as (H1 & H2 & H3 & H4).
    repeat split; try assumption.
    + rewrite H3. unfold log, emit. cbn [snd trace]. rewrite asked_snoc.
      cbn [ask_of]. now rewrite app_nil_r.
    + rewrite H4. unfold log, emit. cbn [snd trace]. rewrite length_app.
      cbn [List.length]. lia.
Qed.

End UnknownPlayer.

(** X13.  A name other than the two that [getMove] knows reaches no
    provider: [makeMove] makes its three attempts without a single
    request, returns "failed to get a valid move after 3 attempts" and
    leaves the game, the history, the table and the channel as they
    were. *)
Theorem unknown_player_reaches_no_provider
    {rules : RulesEngine} (env : Env) (player : string) (s : State rules) :
  is_provider player = false ->
  let r := makeMove env player s in
  fst r = Some ErrNoValidMove
  /\ requests (snd r) = requests s
  /\ asked (trace (snd r)) = asked (trace s)
  /\ game (snd r) = game s /\ moveHistory (snd r) = moveHistory s
  /\ rows (snd r) = rows s /\ offers (trace (snd r)) = offers (trace s)
  /\ gameStateChannel (snd r) = gameStateChannel s.
Proof.
  intros Hp r.
  destruct (attempts_unknown env 3 player (FEN (game s)) Hp ""
              (snd (log (LogGettingMove player (FEN (game s))) s)))
    as (H1 & H2 & H3 & _).
  rewrite <- makeMove_unfold in H1, H2, H3. fold r in H1, H2, H3.
  split; [ exact H1 | split; [ exact H2 | split ] ].
  { rewrite H3. unfold log, emit. cbn [snd trace]. rewrite asked_snoc.
    cbn [ask_of]. now rewrite app_nil_r. }
  destruct (makeMove env player s) as [e s1] eqn:Hmk.
  apply makeMove_cases in Hmk. destruct Hmk as (Hm & _ & _).
  subst r. cbn [fst snd] in *. subst e.
  apply Moved_all_rejected in Hm.
  - destruct Hm as (_ & [Hg Hh _ _] & [Hr Ho Hc _] & _).
    repeat split; assumption.
  - intros k _. unfold answer. unfold is_provider in Hp.
    apply orb_false_elim in Hp as (-> & ->). reflexivity.
Qed.

Lemma unknown_player_reaches_no_provider_witness :
  is_provider "stockfish" = false
  /\ requests (snd (makeMove FoolsMate.quiet "stockfish"
                      (start (rules := FoolsMate.engine))))
     = 0.
Proof.
  split; [ reflexivity | ].
  exact (proj1 (proj2 (unknown_player_reaches_no_provider
                         (rules := FoolsMate.engine)
                         FoolsMate.quiet "stockfish" start eq_refl))).
Defined.

(** X14.  When the provider fails at the first attempt of a turn, the
    second request is a retry that names the empty text as the previous
    move: nothing was rejected yet, and the prompt the provider gets
    starts with "Your previous move '' was invalid." and goes on as the
    first prompt did. *)
Theorem retry_after_provider_error_names_no_move
    {rules : RulesEngine} (env : Env) (player : string) (s : State rules)
    (e : error) :
  is_provider player = true ->
  answer env player (requests s) = inr e ->
  let s' := snd (makeMove env player s) in
  (exists rest,
     asked (trace s')
     = asked (trace s)
       ++ (player, FEN (game s), false, "")
          :: (player, FEN (game s), true, "") :: rest)
  /\ prompt (FEN (game s)) true "" (moveHistory s)
     = ("Your previous move '' was invalid. Please try again with a valid move. "
        ++ prompt (FEN (game s)) false "" (moveHistory s))%string.
Proof.
  intros Hp Hans s'. split; [ | reflexivity ].
  destruct (requests_of_a_turn_core env player s Hp) as (Ha & _).
  fold s' in Ha. rewrite Ha.
  cbn [attempts_used]. rewrite Hans. cbn [rejected].
  destruct (rejected (game s) (answer env player (S (requests s))));
    cbn [seq map]; unfold request_of; cbn [feedback Nat.ltb Nat.leb];
    rewrite Nat.add_0_r, Hans; eexists; reflexivity.
Qed.

Lemma retry_after_provider_error_names_no_move_witness :
  is_provider "openai" = true
  /\ answer flaky "openai" (requests (start (rules := FoolsMate.engine)))
     = inr ErrProvider
  /\ asked (trace (snd (makeMove flaky "openai"
                          (start (rules := FoolsMate.engine)))))
     = [("openai", "rnbqkbnr/pppppppp/8/8/8/8/PPPPPPPP/RNBQKBNR w KQkq - 0 1",
         false, "");
        ("openai", "rnbqkbnr/pppppppp/8/8/8/8/PPPPPPPP/RNBQKBNR w KQkq - 0 1",
         true, "")].
Proof.
  split; [ reflexivity | split; [ reflexivity | ] ].
  destruct (retry_after_provider_error_names_no_move
              (rules := FoolsMate.engine) flaky "openai" start ErrProvider
              eq_refl eq_refl) as ((rest & Hrest) & _).
  reflexivity.
Defined.

(** ** The hook [useSSE] *)

Section UseSSEFacts.

Context {T : Type}.
Variable parse : string -> option (option T).

Lemma tracked_close (h : UseSSE.Hook (T := T)) :
  UseSSE.tracked h ->
  UseSSE.open_sources (UseSSE.closeEventSource h) = []
  /\ UseSSE.eventSourceRef (UseSSE.closeEventSource h) = None.
Proof.
  unfold UseSSE.tracked, UseSSE.closeEventSource.
  destruct (UseSSE.eventSourceRef h) as [id|] eqn:Href; intros Ht; cbn.
  - rewrite Ht. cbn. rewrite Nat.eqb_refl. auto.
  - auto.
Qed.

Lemma tracked_occur (h : UseSSE.Hook (T := T)) (o : UseSSE.Occurrence) :
  UseSSE.tracked h -> UseSSE.tracked (UseSSE.occur parse h o).
Proof.
  intros Ht.
  assert (Hclosed : forall h0 : UseSSE.Hook (T := T),
            UseSSE.tracked h0 -> UseSSE.tracked (UseSSE.closeEventSource h0)).
  { intros h0 H0. destruct (tracked_close h0 H0) as (Ho & Hr).
    unfold UseSSE.tracked. now rewrite Ho, Hr. }
  destruct o as [ | | | id text | id err ]; cbn.
  - destruct (tracked_close h Ht) as (Ho & _).
    unfold UseSSE.tracked, UseSSE.setupSSE. cbn. now rewrite Ho.
  - now apply Hclosed.
  - destruct (tracked_close h Ht) as (Ho & _).
    unfold UseSSE.tracked, UseSSE.setupSSE. cbn. now rewrite Ho.
  - destruct (UseSSE.is_open id h); [ | exact Ht ].
    unfold UseSSE.onmessage. destruct (parse text); exact Ht.
  - destruct (UseSSE.is_open id h); [ | exact Ht ].
    unfold UseSSE.onerror. apply Hclosed. exact Ht.
Qed.

Lemma tracked_life (os : list UseSSE.Occurrence) :
  forall h : UseSSE.Hook (T := T),
    UseSSE.tracked h -> UseSSE.tracked (UseSSE.life parse h os).
Proof.
  induction os as [|o os IH]; intros h Ht; [ exact Ht | ].
  cbn. apply IH. now apply tracked_occur.
Qed.

End UseSSEFacts.

(** X15.  The hook never holds more than one connection to the server:
    whatever happens to it, in whatever order, the event sources that
    are open are exactly the one in [eventSourceRef], none when the ref
    is empty, so setting up again or refreshing leaves no earlier
    connection behind. *)
Theorem useSSE_has_at_most_one_connection
    {T : Type} (parse : string -> option (option T))
    (initialState : option T) (os : list UseSSE.Occurrence) :
  let h := UseSSE.life parse (UseSSE.initial initialState) os in
  UseSSE.open_sources h
  = match UseSSE.eventSourceRef h with Some id => [id] | None => [] end
  /\ List.length (UseSSE.open_sources h) <= 1.
Proof.
  intros h.
  assert (Ht : UseSSE.tracked h).
  { apply tracked_life. reflexivity. }
  split; [ exact Ht | ].
  rewrite Ht. destruct (UseSSE.eventSourceRef h); cbn; lia.
Qed.

(** X16.  What the hook does with what the stream delivers.  An error of
    the stream closes the connection, with no new one opened, sets
    [error] and keeps [data].  A message that does not parse sets
    [error] and keeps [data] and the connection.  A message that parses
    replaces [data] and keeps [error] as it is: an error stays until the
    next [setupSSE]. *)
Theorem useSSE_handles_stream_events
    {T : Type} (parse : string -> option (option T))
    (initialState : option T) (os : list UseSSE.Occurrence)
    (id : nat) (text : string) (err : option string) :
  let h := UseSSE.life parse (UseSSE.initial initialState) os in
  UseSSE.is_open id h = true ->
  let failed := UseSSE.occur parse h (UseSSE.Failure id err) in
  let heard := UseSSE.occur parse h (UseSSE.Message id text) in
  (UseSSE.open_sources failed = []
   /\ UseSSE.eventSourceRef failed = None
   /\ UseSSE.data failed = UseSSE.data h
   /\ UseSSE.error failed <> None)
  /\ UseSSE.open_sources heard = UseSSE.open_sources h
  /\ UseSSE.eventSourceRef heard = UseSSE.eventSourceRef h
  /\ match parse text with
     | Some v => UseSSE.data heard = v
                 /\ UseSSE.error heard = UseSSE.error h
     | None => UseSSE.data heard = UseSSE.data h
               /\ UseSSE.error heard = Some UseSSE.FailedToParse
     end.
Proof.
  intros h Hopen failed heard.
  assert (Ht : UseSSE.tracked h).
  { apply tracked_life. reflexivity. }
  unfold failed, heard. cbn. rewrite Hopen.
  split.
  - unfold UseSSE.onerror.
    match goal with
    | |- context [UseSSE.closeEventSource ?h0] =>
        destruct (tracked_close h0 Ht) as (Ho & Hr);
        assert (Hd : UseSSE.data (UseSSE.closeEventSource h0) = UseSSE.data h
                     /\ UseSSE.error (UseSSE.closeEventSource h0) <> None)
    end.
    { unfold UseSSE.closeEventSource. cbn.
      destruct (UseSSE.eventSourceRef h); cbn; split;
        try reflexivity; destruct err; discriminate. }
    destruct Hd. auto.
  - unfold UseSSE.onmessage. destruct (parse text); cbn; auto.
Qed.

Lemma useSSE_handles_stream_events_witness :
  let h := UseSSE.life (fun text => if String.eqb text "null"
                                    then Some None else None)
             (UseSSE.initial (Some 7))
             [UseSSE.Effect; UseSSE.Message 0 "oops"] in
  UseSSE.is_open 0 h = true
  /\ UseSSE.error (UseSSE.occur
                     (fun text => if String.eqb text "null"
                                  then Some None else None)
                     h (UseSSE.Message 0 "null"))
     = Some UseSSE.FailedToParse.
Proof.
  split; [ reflexivity | ].
  destruct (useSSE_handles_stream_events
              (fun text => if String.eqb text "null" then Some None else None)
              (Some 7) [UseSSE.Effect; UseSSE.Message 0 "oops"]
              0 "null" None eq_refl)
    as (_ & _ & _ & H).
  cbn in H. destruct H as (_ & H). exact H.
Defined.

(** ** The slot to move *)

(** X17.  In a game in progress the slot to move changes exactly when
    the turn is completed, that is, when a move was found within the
    three attempts and its row was written; after every other turn the
    same slot moves again. *)
Theorem slot_changes_iff_turn_completed
    {rules : RulesEngine} (env : Env) (n : nat) :
  let s := playGame env n start in
  in_progress s = true ->
  (slot (playGame_step env s) <> slot s
   <-> exists m, acquired env s = Some m /\ save_error env s = None).
Proof.
  intros s Hprog.
  pose proof (playerIndex_in_range env n) as Hi. fold s in Hi.
  apply (step_cases env s).
  - congruence.
  - intros _ Hnone _ _ Hi' _ _ _ _. unfold slot. rewrite Hi'. split.
    + intros H. now contradiction H.
    + intros (m & Hsome & _). congruence.
  - intros m _ Hsome Herr _ [_ _ Hi' _ _ _]. unfold slot. rewrite Hi'. split.
    + intros _. now exists m.
    + intros _. destruct (playerIndex s) as [|[|i]]; cbn; [ | | lia ];
        discriminate.
  - intros m e _ _ Herr _ [_ Hi' _ _ _]. unfold slot. rewrite Hi'. split.
    + intros H. now contradiction H.
    + intros (m' & _ & Hnone). congruence.
Qed.

Lemma slot_changes_iff_turn_completed_witness :
  let s := playGame FoolsMate.first_write_fails 1
             (start (rules := FoolsMate.engine)) in
  in_progress s = true
  /\ (slot (playGame_step FoolsMate.first_write_fails s) <> slot s
      <-> exists m, acquired FoolsMate.first_write_fails s = Some m
                    /\ save_error FoolsMate.first_write_fails s = None).
Proof.
  intros s.
  assert (H : in_progress s = true) by (vm_compute; reflexivity).
  split; [ exact H | ].
  apply (slot_changes_iff_turn_completed (rules := FoolsMate.engine)
           FoolsMate.first_write_fails 1 H).
Defined.
